(** * VotingSystem: the ballot ledger contract and its HTTP name validator

    A shallow embedding of [VotingSystem.sol] (with the interface
    [IVotingSystem.sol]), of [validateAddCandidate] and [validateContract]
    from [backend/middleware/validator.js], of [errorHandler] and of the
    routes [POST /api/candidates] and [GET /api/winner] of
    [backend/routes/voting.js], followed by the properties of the ledger
    (authorization, validation order, one vote per address, tally
    consistency, winner resolution, the purity of the views) and of the
    middleware and routes around it.

    Conventions.
    - [uint256] and [address] are modelled as [N]; the only arithmetic the
      contract performs on them ([voteCount++] and [candidates.length - 1])
      is checked arithmetic of Solidity 0.8, written out as [checked_inc] and
      [checked_sub], which panic instead of wrapping around.
    - A function body runs in the monad [Exec]: it threads the contract
      storage, collects the emitted events, and may revert.  A revert carries
      the storage as it is at the moment of the revert, so that "nothing was
      written before the check failed" is a statement about the body itself;
      [transact] then adds the rollback the EVM performs on every revert.
    - A Solidity [mapping] is total: a key never written reads as the default
      value.  It is a [gmap] read through [mapping_get].
    - Gas and the storage limit on array lengths are not modelled. *)

From stdpp Require Import gmap strings list fin_maps.
From Stdlib Require Import NArith Lia.

Open Scope N_scope.

(** ** Solidity values *)

Abbreviation uint256 := N (only parsing).
Abbreviation address := N (only parsing).

Definition MAX_UINT256 : uint256 := 2 ^ 256 - 1.

(** The custom errors of [IVotingSystem], and the compiler's [Panic(uint256)]. *)
Inductive Error : Type :=
  | Unauthorized
  | EmptyCandidateName
  | AlreadyVoted
  | InvalidCandidateIndex (index : uint256)
  | NoCandidates
  | Panic (code : N).

(** [struct Candidate { string name; uint256 voteCount; }] *)
Record Candidate : Type := mkCandidate {
  name : string;
  voteCount : uint256
}.

Inductive Event : Type :=
  | CandidateAdded (candidateIndex : uint256) (name : string)
  | VoteCast (voter : address) (candidateIndex : uint256).

(** The state variables of the contract. *)
Record Storage : Type := mkStorage {
  admin : address;
  candidates : list Candidate;
  hasVoted : gmap N bool;
  voterToCandidate : gmap N N
}.

#[global] Instance Error_eq_dec : EqDecision Error.
Proof. solve_decision. Defined.
#[global] Instance Candidate_eq_dec : EqDecision Candidate.
Proof. solve_decision. Defined.
#[global] Instance Event_eq_dec : EqDecision Event.
Proof. solve_decision. Defined.

(** Reading a mapping: the default value where nothing was written. *)
Definition mapping_get {V : Type} (dflt : V) (m : gmap N V) (k : N) : V :=
  default dflt (m !! k).

(** ** The execution monad *)

Inductive Outcome (A : Type) : Type :=
  | Return (a : A) (s : Storage) (log : list Event)
  | Revert (e : Error) (s : Storage).
Arguments Return {A} a s log.
Arguments Revert {A} e s.

Definition Exec (A : Type) : Type := Storage → Outcome A.

Definition ret {A : Type} (a : A) : Exec A := λ s, Return a s [].

Definition bind {A B : Type} (m : Exec A) (k : A → Exec B) : Exec B :=
  λ s, match m s with
       | Return a s1 l1 =>
           match k a s1 with
           | Return b s2 l2 => Return b s2 (l1 ++ l2)
           | Revert e s2 => Revert e s2
           end
       | Revert e s1 => Revert e s1
       end.

Definition revert {A : Type} (e : Error) : Exec A := λ s, Revert e s.
Definition gets {A : Type} (f : Storage → A) : Exec A := λ s, Return (f s) s [].
Definition modify (f : Storage → Storage) : Exec unit := λ s, Return tt (f s) [].
Definition emit (ev : Event) : Exec unit := λ s, Return tt s [ev].

(** [if (cond) revert e;] *)
Definition revert_if (cond : bool) (e : Error) : Exec unit :=
  if cond then revert e else ret tt.

Declare Scope exec_scope.
Delimit Scope exec_scope with exec.
Notation "x <- m ;; k" := (bind m (λ x, k))
  (at level 100, m at next level, right associativity) : exec_scope.
Notation "m ;; k" := (bind m (λ _, k))
  (at level 100, right associativity) : exec_scope.
Open Scope exec_scope.

(** Checked arithmetic of Solidity 0.8: [Panic(0x11)] on overflow or underflow. *)
Definition checked_inc (x : uint256) : Exec uint256 :=
  if MAX_UINT256 <=? x then revert (Panic 17) else ret (x + 1).

Definition checked_sub (x y : uint256) : Exec uint256 :=
  if x <? y then revert (Panic 17) else ret (x - y).

(** [candidates.length] *)
Definition candidates_length (s : Storage) : uint256 :=
  N.of_nat (length (candidates s)).

(** [candidates[i]]: [Panic(0x32)] when [i] is out of bounds. *)
Definition candidates_at (i : uint256) : Exec Candidate :=
  λ s, match candidates s !! N.to_nat i with
       | Some c => Return c s []
       | None => Revert (Panic 50) s
       end.

(** Writes to the state variables. *)
Definition push_candidate (c : Candidate) (s : Storage) : Storage :=
  mkStorage (admin s) (candidates s ++ [c]) (hasVoted s) (voterToCandidate s).

Definition set_hasVoted (k : address) (b : bool) (s : Storage) : Storage :=
  mkStorage (admin s) (candidates s) (<[k := b]> (hasVoted s)) (voterToCandidate s).

Definition set_voterToCandidate (k : address) (i : uint256) (s : Storage) : Storage :=
  mkStorage (admin s) (candidates s) (hasVoted s) (<[k := i]> (voterToCandidate s)).

Definition set_voteCount (i : uint256) (v : uint256) (s : Storage) : Storage :=
  mkStorage (admin s)
    (match candidates s !! N.to_nat i with
     | Some c => <[N.to_nat i := mkCandidate (name c) v]> (candidates s)
     | None => candidates s
     end)
    (hasVoted s) (voterToCandidate s).

(** ** The contract *)

(** [constructor() { admin = msg.sender; }] *)
Definition constructor (sender : address) : Storage :=
  mkStorage sender [] ∅ ∅.

(** [modifier onlyAdmin() { if (msg.sender != admin) revert Unauthorized(); _; }] *)
Definition onlyAdmin {A : Type} (sender : address) (body : Exec A) : Exec A :=
  a <- gets admin ;;
  revert_if (negb (sender =? a)) Unauthorized ;;
  body.

Definition addCandidate (sender : address) (name : string) : Exec unit :=
  onlyAdmin sender (
    revert_if (String.length name =? 0)%nat EmptyCandidateName ;;
    modify (push_candidate (mkCandidate name 0)) ;;
    len <- gets candidates_length ;;
    idx <- checked_sub len 1 ;;
    emit (CandidateAdded idx name)).

Definition vote (sender : address) (candidateIndex : uint256) : Exec unit :=
  voted <- gets (λ s, mapping_get false (hasVoted s) sender) ;;
  revert_if voted AlreadyVoted ;;
  len <- gets candidates_length ;;
  revert_if (len <=? candidateIndex) (InvalidCandidateIndex candidateIndex) ;;
  modify (set_hasVoted sender true) ;;
  modify (set_voterToCandidate sender candidateIndex) ;;
  c <- candidates_at candidateIndex ;;
  v <- checked_inc (voteCount c) ;;
  modify (set_voteCount candidateIndex v) ;;
  emit (VoteCast sender candidateIndex).

Definition getCandidates : Exec (list Candidate) := gets candidates.

(** The loop of [getWinner], from index [i] over the candidates not yet
    visited, with the running [maxVotes] and [winnerIndex]. *)
Fixpoint getWinner_loop (rest : list Candidate) (i : uint256)
    (maxVotes winnerIndex : uint256) : uint256 * uint256 :=
  match rest with
  | [] => (maxVotes, winnerIndex)
  | c :: rest' =>
      if maxVotes <? voteCount c
      then getWinner_loop rest' (i + 1) (voteCount c) i
      else getWinner_loop rest' (i + 1) maxVotes winnerIndex
  end.

Definition getWinner : Exec string :=
  len <- gets candidates_length ;;
  revert_if (len =? 0) NoCandidates ;;
  cs <- gets candidates ;;
  let '(_, winnerIndex) := getWinner_loop cs 0 0 0 in
  c <- candidates_at winnerIndex ;;
  ret (name c).

Definition getCandidateCount : Exec uint256 := gets candidates_length.

Definition hasAddressVoted (_voter : address) : Exec bool :=
  gets (λ s, mapping_get false (hasVoted s) _voter).



(** ** Transactions and histories *)

(** What the caller of a transaction observes. *)
Inductive Receipt (A : Type) : Type :=
  | Success (a : A) (log : list Event)
  | Failure (e : Error).
Arguments Success {A} a log.
Arguments Failure {A} e.

(** A transaction runs a function body; a revert rolls the storage back to
    what it was before the call and discards the events. *)
Definition transact {A : Type} (m : Exec A) (s : Storage) : Storage * Receipt A :=
  match m s with
  | Return a s' log => (s', Success a log)
  | Revert e _ => (s, Failure e)
  end.

(** The two mutating entry points, with [msg.sender] as [caller]. *)
Inductive Op : Type :=
  | AddCandidate (caller : address) (name : string)
  | CastVote (caller : address) (index : uint256).

Definition perform (op : Op) : Exec unit :=
  match op with
  | AddCandidate caller name => addCandidate caller name
  | CastVote caller index => vote caller index
  end.

Definition step (s : Storage) (op : Op) : Storage := fst (transact (perform op) s).

(** The storage after a sequence of transactions. *)
Definition final (s : Storage) (ops : list Op) : Storage := foldl step s ops.

(** Every transaction of a sequence with its receipt. *)
Fixpoint history (s : Storage) (ops : list Op) : list (Op * Receipt unit) :=
  match ops with
  | [] => []
  | op :: ops' => (op, snd (transact (perform op) s)) :: history (step s op) ops'
  end.

Definition is_success {A : Type} (r : Receipt A) : bool :=
  match r with Success _ _ => true | Failure _ => false end.

Definition receipt_log {A : Type} (r : Receipt A) : list Event :=
  match r with Success _ log => log | Failure _ => [] end.

(** All events of a sequence of transactions, in order. *)
Definition events (s : Storage) (ops : list Op) : list Event :=
  concat (map (λ h, receipt_log (snd h)) (history s ops)).

Definition is_vote_by (v : address) (op : Op) : bool :=
  match op with CastVote caller _ => caller =? v | AddCandidate _ _ => false end.

Definition is_add (op : Op) : bool :=
  match op with AddCandidate _ _ => true | CastVote _ _ => false end.

(** The successful [CastVote] transactions of [v] in a history. *)
Definition successful_votes_by (v : address) (h : list (Op * Receipt unit)) :
    list (Op * Receipt unit) :=
  filter (λ x, is_vote_by v (fst x) && is_success (snd x) = true) h.

(** The successful [AddCandidate] transactions of a history. *)
Definition successful_adds (h : list (Op * Receipt unit)) : list (Op * Receipt unit) :=
  filter (λ x, is_add (fst x) && is_success (snd x) = true) h.

(** The candidate indices announced by [CandidateAdded] events. *)
Definition added_indices (log : list Event) : list uint256 :=
  omap (λ ev, match ev with CandidateAdded i _ => Some i | VoteCast _ _ => None end) log.

(** The indices announced by the [VoteCast] events of voter [v]. *)
Definition votes_cast_by (v : address) (log : list Event) : list uint256 :=
  omap (λ ev, match ev with
              | VoteCast voter i => if voter =? v then Some i else None
              | CandidateAdded _ _ => None
              end) log.

(** ** Vote records

    The VoteRecord relation of the ledger: an address has a record exactly
    when [hasVoted] holds for it, and the record is its [voterToCandidate]. *)
Definition voteRecord (s : Storage) (v : address) : option uint256 :=
  if mapping_get false (hasVoted s) v
  then Some (mapping_get 0 (voterToCandidate s) v)
  else None.

Definition voteRecords (s : Storage) : gmap N N :=
  map_imap (λ v (b : bool), if b then Some (mapping_get 0 (voterToCandidate s) v) else None)
    (hasVoted s).

(** The number of vote records that map to candidate index [i]. *)
Definition tally (s : Storage) (i : uint256) : nat :=
  size (filter (λ kv : N * N, kv.2 = i) (voteRecords s)).

(** ** Winner resolution, as a specification

    [earliest_max cs w]: [w] indexes a candidate whose [voteCount] is maximal
    and strictly above that of every earlier candidate. *)
Definition earliest_max (cs : list Candidate) (w : nat) : Prop :=
  ∃ c, cs !! w = Some c ∧
       (∀ j d, cs !! j = Some d → voteCount d ≤ voteCount c) ∧
       (∀ j d, (j < w)%nat → cs !! j = Some d → voteCount d < voteCount c).

(** ** The HTTP validator of candidate names ([validateAddCandidate])

    [req.body.name] is absent (or falsy and not a string), a value that is
    not a string, or a string.  The model of the validator is that of its
    behaviour on ASCII names ([is_ascii]): there the number of UTF-16 code
    units ([name.length]) is the number of bytes, the white space removed by
    [name.trim()] is the six characters of [Ascii.is_space], and the string
    sent to the contract is the same sequence of bytes.  Every statement
    about the validator carries [is_ascii] as a hypothesis. *)
Fixpoint is_ascii (s : string) : bool :=
  match s with
  | EmptyString => true
  | String a s' => (Ascii.N_of_ascii a <? 128) && is_ascii s'
  end.

Inductive BodyField : Type :=
  | Missing
  | NotAString
  | Str (s : string).

Inductive Validation : Type :=
  | Next
  | Rejected (status : N) (message : string).

Fixpoint trimStart (s : string) : string :=
  match s with
  | String a s' => if Ascii.is_space a then trimStart s' else s
  | EmptyString => EmptyString
  end.

Definition trimEnd (s : string) : string := String.rev (trimStart (String.rev s)).

Definition trim (s : string) : string := trimEnd (trimStart s).

Definition validateAddCandidate (field : BodyField) : Validation :=
  match field with
  | Missing | NotAString =>
      Rejected 400 "Candidate name is required and must be a string"
  | Str name =>
      if (String.length name =? 0)%nat
      then Rejected 400 "Candidate name is required and must be a string"
      else if (String.length (trim name) =? 0)%nat
      then Rejected 400 "Candidate name cannot be empty"
      else if (100 <? String.length name)%nat
      then Rejected 400 "Candidate name too long (max 100 characters)"
      else Next
  end.

(** ** Invariants and relations used by the proofs *)

(** What the loop of [getWinner] knows after visiting the prefix [pre]:
    [m] bounds every visited count, and either nothing has been selected
    yet (all visited counts are 0 and the index is still the initial 0),
    or [w] is the first visited index whose count is [m]. *)
Definition scan_inv (pre : list Candidate) (m w : uint256) : Prop :=
  (∀ j d, pre !! j = Some d → voteCount d ≤ m) ∧
  ((m = 0 ∧ w = 0) ∨
   (∃ c, pre !! N.to_nat w = Some c ∧ voteCount c = m ∧
         ∀ j d, (j < N.to_nat w)%nat → pre !! j = Some d → voteCount d < m)).

(** The invariant of the ledger: every [voteCount] is the number of vote
    records for that index, and every record points into the array. *)
Definition tally_inv (s : Storage) : Prop :=
  (∀ i c, candidates s !! i = Some c → voteCount c = N.of_nat (tally s (N.of_nat i))) ∧
  (∀ v i, voteRecord s v = Some i → i < candidates_length s).

(** The three things a transaction can do to the ledger. *)
Inductive step_spec (s : Storage) : Op → Storage → Receipt unit → Prop :=
  | step_failed op e :
      step_spec s op s (Failure e)
  | step_added name :
      name ≠ "" →
      step_spec s (AddCandidate (admin s) name)
        (push_candidate (mkCandidate name 0) s)
        (Success tt [CandidateAdded (candidates_length s) name])
  | step_voted v i c :
      mapping_get false (hasVoted s) v = false →
      candidates s !! N.to_nat i = Some c →
      voteCount c < MAX_UINT256 →
      step_spec s (CastVote v i)
        (mkStorage (admin s)
           (<[N.to_nat i := mkCandidate (name c) (voteCount c + 1)]> (candidates s))
           (<[v := true]> (hasVoted s))
           (<[v := i]> (voterToCandidate s)))
        (Success tt [VoteCast v i]).

(** The index and name announced by every [CandidateAdded] event. *)
Definition added_candidates (log : list Event) : list (uint256 * string) :=
  omap (λ ev, match ev with
              | CandidateAdded i nm => Some (i, nm)
              | VoteCast _ _ => None
              end) log.

Definition op_name (op : Op) : string :=
  match op with AddCandidate _ nm => nm | CastVote _ _ => "" end.

(** ** The ledger as a function of its history *)

(** The total of all vote counts. *)
Definition sum_voteCounts (cs : list Candidate) : N :=
  foldr (λ c acc, voteCount c + acc) 0 cs.

(** The voters announced by the [VoteCast] events for candidate index [i]. *)
Definition votes_cast_for (i : uint256) (log : list Event) : list address :=
  omap (λ ev, match ev with
              | VoteCast voter k => if k =? i then Some voter else None
              | CandidateAdded _ _ => None
              end) log.

(** The candidate array an observer rebuilds from an event log: one candidate
    per [CandidateAdded], with as many votes as there are [VoteCast] events
    for its index. *)
Definition candidates_of_log (log : list Event) : list Candidate :=
  (λ p : N * string, mkCandidate p.2 (N.of_nat (length (votes_cast_for p.1 log))))
    <$> added_candidates log.

From Stdlib Require Import Ascii.

(** ** The error-handling middleware ([errorHandler])

    The thrown value as the handler reads it: [err.status] (absent, or a
    number), [err.message] (absent or not a string, or a string) and
    [err.stack].  Strings are taken as ASCII. *)
Record JsError : Type := mkJsError {
  err_status : option N;
  err_message : option string;
  err_stack : option string
}.

(** [res.status(status).json({ success: false, error: message, stack })],
    the stack being present only in development. *)
Record ErrorReply : Type := mkErrorReply {
  reply_status : N;
  reply_error : string;
  reply_stack : option string
}.

(** The handler answers, or throws a [TypeError] itself. *)
Inductive Handled : Type :=
  | Responded (r : ErrorReply)
  | ThrewTypeError.

(** [strip_prefix p s] is what follows [p] in [s] when [s] starts with [p]. *)
Fixpoint strip_prefix (p s : string) : option string :=
  match p, s with
  | EmptyString, _ => Some s
  | String a p', String b s' => if Ascii.eqb a b then strip_prefix p' s' else None
  | String _ _, EmptyString => None
  end.

Definition starts_with (p s : string) : bool :=
  match strip_prefix p s with Some _ => true | None => false end.

(** [s.includes(needle)] *)
Fixpoint includes (s needle : string) : bool :=
  starts_with needle s ||
  match s with
  | EmptyString => false
  | String _ s' => includes s' needle
  end.

Definition double_quote : Ascii.ascii := "034"%char.

(** The characters [.] does not match. *)
Definition is_line_terminator (a : Ascii.ascii) : bool :=
  match a with
  | "010" | "013" => true
  | _ => false
  end%char.

(** The lazy group [(.+?)] of the pattern, with the non-capturing group that
    follows it (a double quote, or the end of the input), anchored at the
    start of [s]: the shortest non-empty run of characters other than line
    terminators that is followed by a double quote or by the end of the
    string. *)
Fixpoint lazy_reason (s : string) : option string :=
  match s with
  | EmptyString => None
  | String a s' =>
      if is_line_terminator a then None
      else match s' with
           | EmptyString => Some (String a EmptyString)
           | String b _ =>
               if Ascii.eqb b double_quote then Some (String a EmptyString)
               else String a <$> lazy_reason s'
           end
  end.

(** [s.match(...)[1]] for the pattern of the handler, the word revert and a
    space followed by the group above: the capture of the leftmost match. *)
Fixpoint match_revert (s : string) : option string :=
  match strip_prefix "revert " s ≫= lazy_reason with
  | Some r => Some r
  | None =>
      match s with
      | EmptyString => None
      | String _ s' => match_revert s'
      end
  end.

Definition errorHandler (development : bool) (err : JsError) : Handled :=
  match err_message err with
  | None => ThrewTypeError
  | Some m =>
      let status := match err_status err with
                    | Some (Npos p) => Npos p
                    | Some N0 | None => 500
                    end in
      let message := if (String.length m =? 0)%nat then "Internal Server Error" else m in
      let '(status, message) :=
        if includes m "revert" then
          (400, match match_revert m with
                | Some reason => "Transaction reverted: " +:+ reason
                | None => "Transaction reverted"
                end)
        else if includes m "insufficient funds" then
          (400, "Insufficient funds for transaction")
        else if includes m "invalid address" then
          (400, "Invalid Ethereum address")
        else if includes m "Contract address not found" then
          (503, "Contract not deployed. Please deploy the contract first.")
        else (status, message) in
      Responded (mkErrorReply status message (if development then err_stack err else None))
  end.

Fixpoint string_forallb (p : Ascii.ascii → bool) (s : string) : bool :=
  match s with
  | EmptyString => true
  | String a s' => p a && string_forallb p s'
  end.

(** ** The routes [POST /api/candidates] and [GET /api/winner]

    [votingContract] and [adminAddress] are the exports of [web3Client.js]:
    the contract instance, here the storage of the deployed contract, or
    nothing, and the admin address as it is when the module is loaded, if
    set.  Every [await] on the node is a point where transactions of other
    senders can be mined: they are the lists [before] and [between] of the
    handlers.  Calls to the node are taken to go through. *)

(** [Number(x)] for a [uint256] handed over by web3: the nearest double,
    ties to the even significand of 53 bits.  Exact below [2 ^ 53]. *)
Definition Number (n : N) : N :=
  if n <? 2 ^ 53 then n
  else
    let e := N.log2 n - 52 in
    let q := N.shiftr n e in
    let r := n mod 2 ^ e in
    let half := 2 ^ (e - 1) in
    let q' := if (half <? r) || ((r =? half) && N.odd q) then q + 1 else q in
    N.shiftl q' e.

(** [x - 1] on doubles, for [x] a non-negative integer. *)
Definition Number_minus_1 (x : N) : Z :=
  match x with
  | N0 => (-1)%Z
  | Npos _ => Z.of_N (Number (x - 1))
  end.

Inductive Reply (A : Type) : Type :=
  | Json (status : N) (data : A)
  | Refused (status : N) (message : string)
  | Forwarded (e : Error).
Arguments Json {A} status data.
Arguments Refused {A} status message.
Arguments Forwarded {A} e.

(** [validateContract] *)
Definition validateContract {A : Type} (votingContract : option Storage)
    (next : Storage → option Storage * Reply A) : option Storage * Reply A :=
  match votingContract with
  | None =>
      (None, Refused 503 "Contract not initialized. Please deploy the contract first.")
  | Some s => next s
  end.

(** The handler of [POST /api/candidates], on the storage [s] the contract
    has when the request comes in.  The admin address is the exported one
    or, when that is not set, read with [admin()].  The transaction is mined
    after the transactions [before].  [decode] stands for what web3 makes of
    the receipt ([receipt.events.CandidateAdded], or the first raw log
    decoded with the ABI): the announced index, or nothing, in which case the
    handler asks for [getCandidateCount()], answered after the transactions
    [between], and takes one less.  The first component of the result is the
    storage when the answer is sent. *)
Definition post_candidates_handler (decode : list Event → option uint256)
    (adminAddress : option address) (field : BodyField) (before between : list Op)
    (s : Storage) : option Storage * Reply (string * Z) :=
  match validateAddCandidate field with
  | Rejected status message => (Some s, Refused status message)
  | Next =>
      let name := match field with Str name => name | Missing | NotAString => "" end in
      let adminAddr := match adminAddress with
                       | Some a => a
                       | None => admin s
                       end in
      match transact (addCandidate adminAddr name) (final s before) with
      | (s1, Success _ log) =>
          match decode log with
          | Some i => (Some s1, Json 201 (name, Z.of_N (Number i)))
          | None =>
              let s2 := final s1 between in
              (Some s2, Json 201 (name, Number_minus_1 (Number (candidates_length s2))))
          end
      | (s1, Failure e) => (Some s1, Forwarded e)
      end
  end.

Definition post_candidates_route (decode : list Event → option uint256)
    (adminAddress : option address) (votingContract : option Storage)
    (field : BodyField) (before between : list Op) :
    option Storage * Reply (string * Z) :=
  validateContract votingContract
    (post_candidates_handler decode adminAddress field before between).

(** The data of [GET /api/winner]: [winner: null], or the name and a count. *)
Inductive WinnerData : Type :=
  | NoWinnerYet
  | Winner (name : string) (voteCount : N).

(** The handler of [GET /api/winner]: [getWinner()] is answered on the
    storage [s], [getCandidates()] after the transactions [between]. *)
Definition get_winner_handler (between : list Op) (s : Storage) :
    option Storage * Reply WinnerData :=
  match transact getWinner s with
  | (s1, Success winnerName _) =>
      if (String.length winnerName =? 0)%nat then (Some s1, Json 200 NoWinnerYet)
      else
        match transact getCandidates (final s1 between) with
        | (s2, Success candidates _) =>
            let winnerCandidate := find (λ c, String.eqb (name c) winnerName) candidates in
            (Some s2, Json 200 (Winner winnerName
                                  (match winnerCandidate with
                                   | Some c => Number (voteCount c)
                                   | None => 0
                                   end)))
        | (s2, Failure e) => (Some s2, Forwarded e)
        end
  | (s1, Failure e) => (Some s1, Forwarded e)
  end.

Definition get_winner_route (votingContract : option Storage) (between : list Op) :
    option Storage * Reply WinnerData :=
  validateContract votingContract (get_winner_handler between).

(** * Properties *)

(** ** The bodies of the two mutating functions, by cases *)

Lemma addCandidate_cases (sender : address) (name : string) (s : Storage) :
  addCandidate sender name s =
  if negb (sender =? admin s) then Revert Unauthorized s
  else if (String.length name =? 0)%nat then Revert EmptyCandidateName s
  else Return tt (push_candidate (mkCandidate name 0) s)
         [CandidateAdded (candidates_length s) name].
Proof.
  unfold addCandidate, onlyAdmin, bind, gets, revert_if, revert, ret, modify, emit.
  destruct (negb (sender =? admin s)); [done|].
  destruct (String.length name =? 0)%nat; [done|].
  unfold checked_sub, candidates_length, push_candidate, revert, ret; simpl.
  rewrite length_app; simpl.
  destruct (N.ltb_spec (N.of_nat (length (candidates s) + 1)) 1) as [Hlt|Hge]; [lia|].
  simpl. do 3 f_equal. lia.
Qed.

Lemma vote_cases (sender : address) (candidateIndex : uint256) (s : Storage) :
  vote sender candidateIndex s =
  if mapping_get false (hasVoted s) sender then Revert AlreadyVoted s
  else if candidates_length s <=? candidateIndex
  then Revert (InvalidCandidateIndex candidateIndex) s
  else match candidates s !! N.to_nat candidateIndex with
       | Some c =>
           if MAX_UINT256 <=? voteCount c
           then Revert (Panic 17)
                  (set_voterToCandidate sender candidateIndex (set_hasVoted sender true s))
           else Return tt
                  (mkStorage (admin s)
                     (<[N.to_nat candidateIndex := mkCandidate (name c) (voteCount c + 1)]>
                        (candidates s))
                     (<[sender := true]> (hasVoted s))
                     (<[sender := candidateIndex]> (voterToCandidate s)))
                  [VoteCast sender candidateIndex]
       | None =>
           Revert (Panic 50)
             (set_voterToCandidate sender candidateIndex (set_hasVoted sender true s))
       end.
Proof.
  unfold vote, bind, gets, revert_if, revert, ret, modify, emit.
  destruct (mapping_get false (hasVoted s) sender); [done|].
  destruct (candidates_length s <=? candidateIndex); [done|].
  unfold candidates_at; simpl.
  destruct (candidates s !! N.to_nat candidateIndex) as [c|] eqn:Hc; [|done].
  unfold checked_inc, revert, ret.
  destruct (MAX_UINT256 <=? voteCount c); [done|].
  unfold set_voteCount; simpl. by rewrite Hc.
Qed.

(** ** Winner resolution *)

Section WinnerScan.

Lemma scan_inv_init : scan_inv [] 0 0.
Proof. split; [intros j d Hj; by rewrite lookup_nil in Hj | by left]. Qed.

Lemma scan_inv_skip pre c m w :
  scan_inv pre m w → voteCount c ≤ m → scan_inv (pre ++ [c]) m w.
Proof.
  intros [Hle Hsel] Hc. split.
  - intros j d Hj. apply lookup_app_Some in Hj as [Hj|[_ Hj]]; [by eapply Hle|].
    apply list_lookup_singleton_Some in Hj as [_ <-]. done.
  - destruct Hsel as [?|(c' & Hw & Hm & Hbefore)]; [by left|right].
    exists c'. split_and!; [by apply lookup_app_l_Some | done |].
    intros j d Hjw Hj. apply lookup_app_Some in Hj as [Hj|[Hlen _]]; [by eapply Hbefore|].
    apply lookup_lt_Some in Hw. lia.
Qed.

Lemma scan_inv_take pre c m w :
  scan_inv pre m w → m < voteCount c →
  scan_inv (pre ++ [c]) (voteCount c) (N.of_nat (length pre)).
Proof.
  intros [Hle _] Hc. unfold scan_inv. rewrite Nat2N.id. split.
  - intros j d Hj. apply lookup_app_Some in Hj as [Hj|[_ Hj]].
    + specialize (Hle _ _ Hj). lia.
    + apply list_lookup_singleton_Some in Hj as [_ <-]. done.
  - right. exists c. split_and!; [|done|].
    + rewrite lookup_app_r; [|done]. by rewrite Nat.sub_diag.
    + intros j d Hjw Hj. rewrite lookup_app_l in Hj; [|done].
      specialize (Hle _ _ Hj). lia.
Qed.

Lemma getWinner_loop_inv rest : ∀ pre m w,
  scan_inv pre m w →
  scan_inv (pre ++ rest)
    (getWinner_loop rest (N.of_nat (length pre)) m w).1
    (getWinner_loop rest (N.of_nat (length pre)) m w).2.
Proof.
  induction rest as [|c rest IH]; intros pre m w Hinv; simpl.
  - by rewrite app_nil_r.
  - replace (N.of_nat (length pre) + 1) with (N.of_nat (length (pre ++ [c])))
      by (rewrite length_app; simpl; lia).
    rewrite (cons_middle c pre rest), app_assoc.
    destruct (N.ltb_spec m (voteCount c)) as [Hlt|Hge].
    + apply IH. by apply scan_inv_take with (m := m) (w := w).
    + apply IH. by apply scan_inv_skip.
Qed.

(** At the end of the scan over a non-empty registry the selected index is
    the earliest one with a maximal count. *)
Lemma scan_inv_earliest_max cs m w :
  cs ≠ [] → scan_inv cs m w → earliest_max cs (N.to_nat w).
Proof.
  intros Hne [Hle [[-> ->]|(c & Hw & Hm & Hbefore)]].
  - destruct cs as [|c cs]; [done|]. exists c. split_and!; [done | |].
    + intros j d Hj. pose proof (Hle _ _ Hj). pose proof (Hle 0%nat c eq_refl). lia.
    + intros j d Hj. simpl in Hj. lia.
  - exists c. subst m. by split_and!.
Qed.

End WinnerScan.

Lemma getWinner_cases (s : Storage) :
  getWinner s =
  if candidates_length s =? 0 then Revert NoCandidates s
  else match candidates s !! N.to_nat (getWinner_loop (candidates s) 0 0 0).2 with
       | Some c => Return (name c) s []
       | None => Revert (Panic 50) s
       end.
Proof.
  unfold getWinner, bind, gets, revert_if, revert, ret.
  destruct (candidates_length s =? 0); [done|]. simpl.
  destruct (getWinner_loop (candidates s) 0 0 0) as [m w]; simpl.
  unfold candidates_at. by destruct (candidates s !! N.to_nat w).
Qed.

(** C1. [getWinner] reverts with [NoCandidates] exactly when the candidate
    array is empty, and it reverts in no other case.  On a non-empty array it
    returns, without touching the storage, the name of the candidate at the
    earliest index whose [voteCount] is maximal: no candidate has more votes
    and every earlier candidate has strictly fewer, so an equal count at a
    later index never wins; when every count is 0 that index is 0. *)
Theorem getWinner_earliest_maximal (s : Storage) :
  (getWinner s = Revert NoCandidates s ↔ candidates s = []) ∧
  (∀ e s', getWinner s = Revert e s' → candidates s = [] ∧ e = NoCandidates) ∧
  (candidates s ≠ [] →
   ∃ w c, earliest_max (candidates s) w ∧
          candidates s !! w = Some c ∧
          getWinner s = Return (name c) s [] ∧
          ((∀ d, d ∈ candidates s → voteCount d = 0) → w = 0%nat)).
Proof.
  assert (Hnonempty : candidates s ≠ [] →
    ∃ w c, earliest_max (candidates s) w ∧ candidates s !! w = Some c ∧
           getWinner s = Return (name c) s [] ∧
           ((∀ d, d ∈ candidates s → voteCount d = 0) → w = 0%nat)).
  { intros Hne.
    pose proof (getWinner_loop_inv (candidates s) [] 0 0 scan_inv_init) as Hinv.
    change (N.of_nat (length (@nil Candidate))) with 0 in Hinv.
    rewrite app_nil_l in Hinv. apply scan_inv_earliest_max in Hinv; [|done].
    set (w := (getWinner_loop (candidates s) 0 0 0).2) in *.
    destruct Hinv as (c & Hw & Hmax & Hbefore).
    exists (N.to_nat w), c. split_and!.
    - by exists c.
    - done.
    - rewrite getWinner_cases. fold w. rewrite Hw.
      destruct (N.eqb_spec (candidates_length s) 0) as [Hz|_]; [|done].
      unfold candidates_length in Hz. destruct (candidates s); [done|simpl in Hz; lia].
    - intros Hzero. destruct (N.to_nat w) as [|w'] eqn:Ew; [done|].
      destruct (candidates s) as [|c0 cs] eqn:Ecs; [done|].
      specialize (Hbefore 0%nat c0 ltac:(lia) eq_refl).
      rewrite (Hzero c) in Hbefore; [lia|]. by eapply list_elem_of_lookup_2. }
  split_and!; [split| |done].
  - intros Hrev. destruct (candidates s) eqn:Ecs; [done|].
    destruct Hnonempty as (w & c' & _ & _ & Hret & _); [done|]. congruence.
  - intros Hnil. rewrite getWinner_cases. unfold candidates_length. by rewrite Hnil.
  - intros e s' Hrev. destruct (candidates s) eqn:Ecs.
    + rewrite getWinner_cases in Hrev. unfold candidates_length in Hrev.
      rewrite Ecs in Hrev. simpl in Hrev.
      split; [done|congruence].
    + destruct Hnonempty as (w & c' & _ & _ & Hret & _); [done|]. congruence.
Qed.

Lemma getWinner_earliest_maximal_witness :
  ∃ w c, earliest_max [mkCandidate "A" 1; mkCandidate "B" 1] w ∧
         [mkCandidate "A" 1; mkCandidate "B" 1] !! w = Some c ∧
         getWinner (mkStorage 1 [mkCandidate "A" 1; mkCandidate "B" 1] ∅ ∅) =
           Return (name c) (mkStorage 1 [mkCandidate "A" 1; mkCandidate "B" 1] ∅ ∅) [] ∧
         ((∀ d, d ∈ [mkCandidate "A" 1; mkCandidate "B" 1] → voteCount d = 0) → w = 0%nat).
Proof.
  apply (proj2 (proj2 (getWinner_earliest_maximal
           (mkStorage 1 [mkCandidate "A" 1; mkCandidate "B" 1] ∅ ∅)))).
  simpl. discriminate.
Defined.

(** ** Vote records and the two mappings *)

Lemma voteRecords_lookup (s : Storage) (v : address) :
  voteRecords s !! v = voteRecord s v.
Proof.
  unfold voteRecords, voteRecord, mapping_get. rewrite map_lookup_imap.
  by destruct (hasVoted s !! v) as [[]|].
Qed.

Lemma voteRecord_is_Some (s : Storage) (v : address) :
  is_Some (voteRecord s v) ↔ mapping_get false (hasVoted s) v = true.
Proof.
  unfold voteRecord. destruct (mapping_get false (hasVoted s) v).
  - split; [done | by eexists].
  - split; [by intros [? ?] | done].
Qed.

Lemma voteRecord_None (s : Storage) (v : address) :
  voteRecord s v = None ↔ mapping_get false (hasVoted s) v = false.
Proof. unfold voteRecord. by destruct (mapping_get false (hasVoted s) v). Qed.

(** ** AddCandidate: authorization and validation *)

(** C8. [addCandidate] sent by any address other than [admin] reverts with
    [Unauthorized], whatever the name and the storage; nothing has been
    written when it reverts, and the transaction leaves the storage, hence
    the candidates and all vote records, as they were. *)
Theorem addCandidate_non_admin_unauthorized
    (s : Storage) (sender : address) (name : string) :
  sender ≠ admin s →
  addCandidate sender name s = Revert Unauthorized s ∧
  transact (addCandidate sender name) s = (s, Failure Unauthorized).
Proof.
  intros Hne. assert (Hbody : addCandidate sender name s = Revert Unauthorized s).
  { rewrite addCandidate_cases. by destruct (N.eqb_spec sender (admin s)). }
  split; [done|]. unfold transact. by rewrite Hbody.
Qed.

Lemma addCandidate_non_admin_unauthorized_witness :
  addCandidate 7 "Alice" (constructor 1) = Revert Unauthorized (constructor 1) ∧
  transact (addCandidate 7 "Alice") (constructor 1) = (constructor 1, Failure Unauthorized).
Proof. apply (addCandidate_non_admin_unauthorized (constructor 1) 7 "Alice"). done. Defined.

(** C2, as stated, fails: the modifier [onlyAdmin] runs before the body, so
    an empty name sent by an address that is not the admin is rejected with
    [Unauthorized], not with [EmptyCandidateName]. *)
Lemma addCandidate_empty_name_any_caller_counterexample :
  ¬ (∀ (s : Storage) (sender : address),
       transact (addCandidate sender "") s = (s, Failure EmptyCandidateName)).
Proof. intros H. specialize (H (constructor 1) 2). vm_compute in H. discriminate H. Qed.

(** C2, amended. [addCandidate] with the empty name fails for every caller
    and leaves the storage unchanged (nothing has been written when it
    reverts); the error is [EmptyCandidateName] when the caller is the admin
    and [Unauthorized] when it is not. *)
Theorem addCandidate_empty_name_rejected (s : Storage) (sender : address) :
  addCandidate sender "" s =
    Revert (if sender =? admin s then EmptyCandidateName else Unauthorized) s ∧
  transact (addCandidate sender "") s =
    (s, Failure (if sender =? admin s then EmptyCandidateName else Unauthorized)).
Proof.
  unfold transact. rewrite addCandidate_cases.
  by destruct (sender =? admin s).
Qed.

(** C10. Sent by the admin, [addCandidate] succeeds for every non-empty
    name, whatever its bytes: it appends the candidate and announces its
    index.  The validator of the HTTP route rejects an ASCII name that is
    non-empty but blank after trimming and an ASCII name of more than 100
    characters, which the contract both accepts. *)
Theorem addCandidate_admin_accepts_nonempty (s : Storage) (name : string) :
  name ≠ "" →
  transact (addCandidate (admin s) name) s =
    (push_candidate (mkCandidate name 0) s,
     Success tt [CandidateAdded (candidates_length s) name]) ∧
  (is_ascii name = true → String.length (trim name) = 0%nat →
   validateAddCandidate (Str name) = Rejected 400 "Candidate name cannot be empty") ∧
  (is_ascii name = true → String.length (trim name) ≠ 0%nat →
   (100 < String.length name)%nat →
   validateAddCandidate (Str name) =
     Rejected 400 "Candidate name too long (max 100 characters)").
Proof.
  intros Hne.
  assert (Hlen : (String.length name =? 0)%nat = false) by by destruct name.
  split_and!.
  - unfold transact. rewrite addCandidate_cases, N.eqb_refl, Hlen. done.
  - intros _ Htrim. unfold validateAddCandidate. by rewrite Hlen, Htrim.
  - intros _ Htrim Hlong. unfold validateAddCandidate. rewrite Hlen.
    destruct (Nat.eqb_spec (String.length (trim name)) 0); [done|].
    by destruct (Nat.ltb_spec 100 (String.length name)); [|lia].
Qed.

(** A blank name: refused by the validator, accepted by the contract. *)
Lemma addCandidate_admin_accepts_nonempty_witness :
  transact (addCandidate 1 "   ") (constructor 1) =
    (mkStorage 1 [mkCandidate "   " 0] ∅ ∅, Success tt [CandidateAdded 0 "   "]) ∧
  validateAddCandidate (Str "   ") = Rejected 400 "Candidate name cannot be empty".
Proof.
  destruct (addCandidate_admin_accepts_nonempty (constructor 1) "   ") as (Hcore & Hblank & _);
    [done|].
  split; [exact Hcore | apply Hblank; reflexivity].
Defined.

(** ** CastVote: the order of the checks *)

(** C3. [vote] first checks the caller: with a vote record it reverts with
    [AlreadyVoted] whatever the index.  Only then it checks the index: for a
    caller without a record and an index not below [candidates.length]
    (every index when there is no candidate) it reverts with
    [InvalidCandidateIndex(index)].  In both cases nothing has been written
    when it reverts, and the transaction leaves the storage unchanged. *)
Theorem vote_checks_in_order (s : Storage) (sender : address) (candidateIndex : uint256) :
  (is_Some (voteRecord s sender) →
   vote sender candidateIndex s = Revert AlreadyVoted s ∧
   transact (vote sender candidateIndex) s = (s, Failure AlreadyVoted)) ∧
  (voteRecord s sender = None → candidates_length s ≤ candidateIndex →
   vote sender candidateIndex s = Revert (InvalidCandidateIndex candidateIndex) s ∧
   transact (vote sender candidateIndex) s =
     (s, Failure (InvalidCandidateIndex candidateIndex))) ∧
  (voteRecord s sender = None → candidates s = [] →
   transact (vote sender candidateIndex) s =
     (s, Failure (InvalidCandidateIndex candidateIndex))).
Proof.
  split_and!.
  - intros Hrec%voteRecord_is_Some. unfold transact. rewrite vote_cases, Hrec. done.
  - intros Hrec%voteRecord_None Hidx. unfold transact. rewrite vote_cases, Hrec.
    by destruct (N.leb_spec (candidates_length s) candidateIndex); [|lia].
  - intros Hrec%voteRecord_None Hnil. unfold transact. rewrite vote_cases, Hrec.
    assert (candidates_length s ≤ candidateIndex)
      by (unfold candidates_length; rewrite Hnil; simpl; lia).
    by destruct (N.leb_spec (candidates_length s) candidateIndex); [|lia].
Qed.

Lemma vote_checks_in_order_witness :
  transact (vote 5 9) (mkStorage 1 [mkCandidate "A" 1] {[5 := true]} {[5 := 0]}) =
    (mkStorage 1 [mkCandidate "A" 1] {[5 := true]} {[5 := 0]}, Failure AlreadyVoted) ∧
  transact (vote 6 0) (constructor 1) = (constructor 1, Failure (InvalidCandidateIndex 0)).
Proof.
  split.
  - apply (proj1 (vote_checks_in_order
                    (mkStorage 1 [mkCandidate "A" 1] {[5 := true]} {[5 := 0]}) 5 9)).
    vm_compute. eauto.
  - apply (proj1 (proj2 (vote_checks_in_order (constructor 1) 6 0))).
    + reflexivity.
    + vm_compute. discriminate.
Defined.

(** ** CastVote: the effect of a successful vote *)

Lemma vote_success_inv (s s' : Storage) (sender : address) (candidateIndex : uint256)
    (r : unit) (log : list Event) :
  transact (vote sender candidateIndex) s = (s', Success r log) →
  ∃ c, mapping_get false (hasVoted s) sender = false ∧
       candidateIndex < candidates_length s ∧
       candidates s !! N.to_nat candidateIndex = Some c ∧
       voteCount c < MAX_UINT256 ∧
       log = [VoteCast sender candidateIndex] ∧
       s' = mkStorage (admin s)
              (<[N.to_nat candidateIndex := mkCandidate (name c) (voteCount c + 1)]>
                 (candidates s))
              (<[sender := true]> (hasVoted s))
              (<[sender := candidateIndex]> (voterToCandidate s)).
Proof.
  unfold transact. rewrite vote_cases.
  destruct (mapping_get false (hasVoted s) sender); [done|].
  destruct (N.leb_spec (candidates_length s) candidateIndex); [done|].
  destruct (candidates s !! N.to_nat candidateIndex) as [c|]; [|done].
  destruct (N.leb_spec MAX_UINT256 (voteCount c)); [done|].
  intros [= <- <- <-]. by exists c.
Qed.

(** C7. A successful [vote] by [sender] for [candidateIndex] adds exactly 1
    to the [voteCount] of that candidate (without wrap-around) and records
    [candidateIndex] as the vote of [sender], who had no record before.
    Nothing else changes: the name of that candidate, every other candidate,
    the number of candidates, [admin], and the record and the two mapping
    entries of every other address.  It emits the single event [VoteCast]. *)
Theorem vote_success_frame (s s' : Storage) (sender : address) (candidateIndex : uint256)
    (log : list Event) :
  transact (vote sender candidateIndex) s = (s', Success tt log) →
  (∃ c c', candidates s !! N.to_nat candidateIndex = Some c ∧
           candidates s' !! N.to_nat candidateIndex = Some c' ∧
           voteCount c' = voteCount c + 1 ∧ voteCount c' ≤ MAX_UINT256 ∧
           name c' = name c) ∧
  (∀ j, j ≠ N.to_nat candidateIndex → candidates s' !! j = candidates s !! j) ∧
  length (candidates s') = length (candidates s) ∧
  admin s' = admin s ∧
  voteRecord s sender = None ∧
  voteRecord s' sender = Some candidateIndex ∧
  (∀ u, u ≠ sender →
        voteRecord s' u = voteRecord s u ∧
        hasVoted s' !! u = hasVoted s !! u ∧
        voterToCandidate s' !! u = voterToCandidate s !! u) ∧
  log = [VoteCast sender candidateIndex].
Proof.
  intros (c & Hvoted & Hidx & Hc & Hmax & -> & ->)%vote_success_inv.
  simpl. split_and!.
  - exists c, (mkCandidate (name c) (voteCount c + 1)). split_and!; try done.
    + apply list_lookup_insert_eq. by eapply lookup_lt_Some.
    + simpl. lia.
  - intros j Hj. by apply list_lookup_insert_ne.
  - apply length_insert.
  - done.
  - by apply voteRecord_None.
  - unfold voteRecord, mapping_get; simpl. by rewrite !lookup_insert_eq.
  - intros u Hu. unfold voteRecord, mapping_get; simpl.
    by rewrite !lookup_insert_ne.
  - done.
Qed.

Lemma vote_success_frame_witness :
  voteRecord (mkStorage 1 [mkCandidate "A" 0; mkCandidate "B" 1] {[4 := true]} {[4 := 1]}) 3
    = None ∧
  voteRecord (mkStorage 1 [mkCandidate "A" 0; mkCandidate "B" 2]
                (<[3 := true]> {[4 := true]}) (<[3 := 1]> {[4 := 1]})) 3 = Some 1.
Proof.
  pose proof (vote_success_frame
    (mkStorage 1 [mkCandidate "A" 0; mkCandidate "B" 1] {[4 := true]} {[4 := 1]})
    (mkStorage 1 [mkCandidate "A" 0; mkCandidate "B" 2]
       (<[3 := true]> {[4 := true]}) (<[3 := 1]> {[4 := 1]}))
    3 1 [VoteCast 3 1] eq_refl) as H.
  split; apply H.
Defined.

(** ** The views *)

(** C9. [getCandidates], [getWinner] and [hasAddressVoted] (and
    [getCandidateCount]) are reads: running one leaves the storage as it was,
    whether it returns or reverts, and emits nothing; hence running it again
    on the resulting storage gives the same outcome.  [getCandidates] always
    returns, and what it returns is the candidate array of the storage: the
    name and vote count of every candidate, in order, at its index. *)
Theorem views_are_pure (s : Storage) (v : address) :
  getCandidates s = Return (candidates s) s [] ∧
  hasAddressVoted v s = Return (mapping_get false (hasVoted s) v) s [] ∧
  getCandidateCount s = Return (candidates_length s) s [] ∧
  ((∃ nm, getWinner s = Return nm s []) ∨ (∃ e, getWinner s = Revert e s)) ∧
  fst (transact getCandidates s) = s ∧
  fst (transact getWinner s) = s ∧
  fst (transact (hasAddressVoted v) s) = s ∧
  snd (transact getCandidates (fst (transact getCandidates s))) = snd (transact getCandidates s) ∧
  snd (transact getWinner (fst (transact getWinner s))) = snd (transact getWinner s) ∧
  snd (transact (hasAddressVoted v) (fst (transact (hasAddressVoted v) s))) =
    snd (transact (hasAddressVoted v) s).
Proof.
  assert (Hw : (∃ nm, getWinner s = Return nm s []) ∨ (∃ e, getWinner s = Revert e s)).
  { rewrite getWinner_cases. destruct (candidates_length s =? 0); [right; by eexists|].
    destruct (candidates s !! N.to_nat (getWinner_loop (candidates s) 0 0 0).2);
      [left|right]; by eexists. }
  assert (Hfst : fst (transact getWinner s) = s).
  { unfold transact. by destruct Hw as [[nm ->]|[e ->]]. }
  split_and!; try done.
  by rewrite Hfst.
Qed.

(** ** One transaction of a history *)

Lemma transact_step_spec (s : Storage) (op : Op) :
  step_spec s op (step s op) (snd (transact (perform op) s)).
Proof.
  unfold step. destruct op as [caller nm|caller i]; simpl.
  - unfold transact. rewrite addCandidate_cases.
    destruct (N.eqb_spec caller (admin s)) as [->|]; simpl; [|constructor].
    destruct nm as [|a nm]; simpl; [constructor|]. by apply step_added.
  - destruct (transact (vote caller i) s) as [s' [[] log|e]] eqn:Ht.
    + apply vote_success_inv in Ht as (c & ? & ? & ? & ? & -> & ->). by apply step_voted.
    + unfold transact in Ht. destruct (vote caller i s); inversion Ht; subst. constructor.
Qed.

(** Case analysis on what the transaction [op] does in storage [s]. *)
Ltac step_cases s op :=
  let H := fresh "Hstep" in
  let s' := fresh "s'" in
  let r := fresh "r" in
  pose proof (transact_step_spec s op) as H;
  set (s' := step s op) in *;
  set (r := snd (transact (perform op) s)) in *;
  clearbody s' r;
  destruct H as [? ? | nm Hnm | voter idx cand Hnovote Hcand Hmax].

Lemma history_cons (s : Storage) (op : Op) (ops : list Op) :
  history s (op :: ops) = (op, snd (transact (perform op) s)) :: history (step s op) ops.
Proof. reflexivity. Qed.

Lemma events_cons (s : Storage) (op : Op) (ops : list Op) :
  events s (op :: ops) =
  receipt_log (snd (transact (perform op) s)) ++ events (step s op) ops.
Proof. reflexivity. Qed.

Lemma final_cons (s : Storage) (op : Op) (ops : list Op) :
  final s (op :: ops) = final (step s op) ops.
Proof. reflexivity. Qed.

Lemma final_app (s : Storage) (ops1 ops2 : list Op) :
  final s (ops1 ++ ops2) = final (final s ops1) ops2.
Proof. apply foldl_app. Qed.

(** ** AddCandidate: the assigned indices *)

Lemma added_candidates_app (l1 l2 : list Event) :
  added_candidates (l1 ++ l2) = added_candidates l1 ++ added_candidates l2.
Proof. apply omap_app. Qed.

Lemma added_candidates_history (ops : list Op) : ∀ s : Storage,
  added_candidates (events s ops) =
  imap (λ k h, (N.of_nat (length (candidates s) + k), op_name (fst h)))
    (successful_adds (history s ops)).
Proof.
  induction ops as [|op ops IH]; intros s; [done|].
  rewrite events_cons, added_candidates_app, history_cons, IH.
  unfold successful_adds. step_cases s op.
  - rewrite filter_cons_False; [done|]. simpl. by rewrite andb_false_r.
  - rewrite filter_cons_True by done. simpl.
    unfold candidates_length. rewrite Nat.add_0_r. f_equal.
    apply imap_ext. intros k h _. simpl. rewrite length_app. simpl.
    do 2 f_equal. lia.
  - rewrite filter_cons_False by (simpl; done). simpl.
    apply imap_ext. intros k h _. simpl. by rewrite length_insert.
Qed.

(** C5. Every successful [addCandidate] is sent by the admin with a
    non-empty name, appends the candidate with that name and 0 votes at the
    end of the array, changes nothing else, and announces as index the
    length the array had before the call.  Over any sequence of transactions
    (votes and failed calls included) the successful [addCandidate] calls are
    therefore announced, in order, with the indices [n], [n + 1], ... where
    [n] is the initial number of candidates: from a freshly deployed contract
    the k-th successful call (counting from 0) gets index k. *)
Theorem addCandidate_index_is_previous_length (s : Storage) (ops : list Op) :
  (∀ sender nm s' log,
     transact (addCandidate sender nm) s = (s', Success tt log) →
     sender = admin s ∧ nm ≠ "" ∧
     candidates s' = candidates s ++ [mkCandidate nm 0] ∧
     admin s' = admin s ∧ hasVoted s' = hasVoted s ∧
     voterToCandidate s' = voterToCandidate s ∧
     log = [CandidateAdded (N.of_nat (length (candidates s))) nm]) ∧
  added_candidates (events s ops) =
    imap (λ k h, (N.of_nat (length (candidates s) + k), op_name (fst h)))
      (successful_adds (history s ops)) ∧
  (∀ a, added_candidates (events (constructor a) ops) =
        imap (λ k h, (N.of_nat k, op_name (fst h)))
          (successful_adds (history (constructor a) ops))) ∧
  (∀ a, added_indices (events (constructor a) ops) =
        N.of_nat <$> seq 0 (length (successful_adds (history (constructor a) ops)))).
Proof.
  split_and!.
  - intros sender nm s' log. unfold transact. rewrite addCandidate_cases.
    destruct (N.eqb_spec sender (admin s)) as [->|]; simpl; [|done].
    destruct nm as [|a nm]; simpl; [done|]. by intros [= <- <-].
  - apply added_candidates_history.
  - intros a. apply added_candidates_history.
  - intros a.
    assert (Hfst : ∀ log, added_indices log = fst <$> added_candidates log).
    { intros log. induction log as [|[] log IHlog]; simpl; [done| |done].
      unfold added_indices, added_candidates in *. simpl. by rewrite IHlog. }
    rewrite Hfst, added_candidates_history. simpl.
    generalize (successful_adds (history (constructor a) ops)). intros l.
    rewrite fmap_imap. unfold compose. simpl.
    apply list_eq. intros k. rewrite list_lookup_imap, list_lookup_fmap.
    destruct (l !! k) eqn:Hk; simpl.
    + rewrite lookup_seq_lt; [done|]. by eapply lookup_lt_Some.
    + rewrite lookup_seq_ge; [done|]. by apply lookup_ge_None.
Qed.

Lemma addCandidate_index_is_previous_length_witness :
  1 = admin (mkStorage 1 [mkCandidate "Alice" 0] ∅ ∅) ∧ "Bob" ≠ "" ∧
  candidates (mkStorage 1 [mkCandidate "Alice" 0; mkCandidate "Bob" 0] ∅ ∅) =
    candidates (mkStorage 1 [mkCandidate "Alice" 0] ∅ ∅) ++ [mkCandidate "Bob" 0] ∧
  admin (mkStorage 1 [mkCandidate "Alice" 0; mkCandidate "Bob" 0] ∅ ∅) =
    admin (mkStorage 1 [mkCandidate "Alice" 0] ∅ ∅) ∧
  hasVoted (mkStorage 1 [mkCandidate "Alice" 0; mkCandidate "Bob" 0] ∅ ∅) =
    hasVoted (mkStorage 1 [mkCandidate "Alice" 0] ∅ ∅) ∧
  voterToCandidate (mkStorage 1 [mkCandidate "Alice" 0; mkCandidate "Bob" 0] ∅ ∅) =
    voterToCandidate (mkStorage 1 [mkCandidate "Alice" 0] ∅ ∅) ∧
  [CandidateAdded 1 "Bob"] =
    [CandidateAdded (N.of_nat (length (candidates (mkStorage 1 [mkCandidate "Alice" 0] ∅ ∅))))
       "Bob"].
Proof.
  apply (proj1 (addCandidate_index_is_previous_length
                  (mkStorage 1 [mkCandidate "Alice" 0] ∅ ∅) [])
           1 "Bob" (mkStorage 1 [mkCandidate "Alice" 0; mkCandidate "Bob" 0] ∅ ∅)
           [CandidateAdded 1 "Bob"]).
  reflexivity.
Defined.

(** ** Tally consistency *)

Lemma voteRecords_after_vote (a : address) (cs cs' : list Candidate)
    (hv : gmap N bool) (vtc : gmap N N) (v : address) (i : uint256) :
  voteRecords (mkStorage a cs' (<[v := true]> hv) (<[v := i]> vtc)) =
  <[v := i]> (voteRecords (mkStorage a cs hv vtc)).
Proof.
  apply map_eq. intros u. rewrite voteRecords_lookup.
  destruct (decide (v = u)) as [->|Hne].
  - rewrite lookup_insert_eq. unfold voteRecord, mapping_get; simpl.
    by rewrite !lookup_insert_eq.
  - rewrite lookup_insert_ne by done. rewrite voteRecords_lookup.
    unfold voteRecord, mapping_get; simpl. by rewrite !lookup_insert_ne.
Qed.

Lemma tally_insert (m : gmap N N) (v : address) (i j : uint256) :
  m !! v = None →
  size (filter (λ kv : N * N, kv.2 = j) (<[v := i]> m)) =
  if decide (i = j)
  then S (size (filter (λ kv : N * N, kv.2 = j) m))
  else size (filter (λ kv : N * N, kv.2 = j) m).
Proof.
  intros Hv. rewrite map_filter_insert. simpl. destruct (decide (i = j)).
  - apply map_size_insert_None. apply map_lookup_filter_None_2. by left.
  - by rewrite delete_id.
Qed.

Lemma tally_inv_constructor (a : address) : tally_inv (constructor a).
Proof. split; [by intros i c Hc | by intros v i Hv]. Qed.

Lemma tally_inv_step (s : Storage) (op : Op) : tally_inv s → tally_inv (step s op).
Proof.
  intros [Hcount Hrange]. step_cases s op; [done| |].
  - split.
    + intros i c Hc. change (tally (push_candidate (mkCandidate nm 0) s) (N.of_nat i))
        with (tally s (N.of_nat i)).
      simpl in Hc. apply lookup_app_Some in Hc as [Hc|[Hlen Hc]]; [by apply Hcount|].
      apply list_lookup_singleton_Some in Hc as [Hi <-]. simpl.
      assert (Hempty : tally s (N.of_nat i) = 0%nat); [|by rewrite Hempty].
      apply map_size_empty_iff, map_empty. intros v.
      apply map_lookup_filter_None_2.
      destruct (voteRecords s !! v) as [k|] eqn:Hv; [right|by left].
      intros k' [= <-] Hk. simpl in Hk. subst k.
      rewrite voteRecords_lookup in Hv. apply Hrange in Hv.
      unfold candidates_length in Hv. lia.
    + intros v i Hv. change (voteRecord s v = Some i) in Hv. apply Hrange in Hv.
      unfold candidates_length in *. simpl. rewrite length_app. simpl. lia.
  - assert (Hfresh : voteRecords s !! voter = None).
    { rewrite voteRecords_lookup. by apply voteRecord_None. }
    assert (Hlt : (N.to_nat idx < length (candidates s))%nat) by by eapply lookup_lt_Some.
    split.
    + intros j d Hd. unfold tally.
      destruct s as [a cs hv vtc]; simpl in *.
      rewrite (voteRecords_after_vote a cs), tally_insert by done.
      destruct (decide (j = N.to_nat idx)) as [->|Hne].
      * rewrite list_lookup_insert_eq in Hd by done. injection Hd as <-. simpl.
        rewrite decide_True by lia. rewrite (Hcount _ _ Hcand). unfold tally.
        rewrite N2Nat.id. lia.
      * rewrite list_lookup_insert_ne in Hd by done.
        rewrite decide_False by lia. by apply Hcount.
    + intros u k Hu. unfold candidates_length. simpl. rewrite length_insert.
      rewrite <- voteRecords_lookup in Hu.
      destruct s as [a cs hv vtc]; simpl in *.
      rewrite (voteRecords_after_vote a cs) in Hu.
      apply lookup_insert_Some in Hu as [[_ <-]|[_ Hu]]; [lia|].
      rewrite voteRecords_lookup in Hu. by apply Hrange in Hu.
Qed.

Lemma tally_inv_final (ops : list Op) : ∀ s, tally_inv s → tally_inv (final s ops).
Proof.
  induction ops as [|op ops IH]; intros s Hs; [done|].
  rewrite final_cons. by apply IH, tally_inv_step.
Qed.

(** C6. In every state reached from a freshly deployed contract by any
    sequence of [addCandidate] and [vote] transactions, successful or not,
    the [voteCount] of the candidate at every index [i] of the array is the
    number of addresses whose vote record is [i]. *)
Theorem voteCount_is_number_of_records (a : address) (ops : list Op)
    (i : nat) (c : Candidate) :
  candidates (final (constructor a) ops) !! i = Some c →
  voteCount c = N.of_nat (tally (final (constructor a) ops) (N.of_nat i)).
Proof.
  intros Hc. by apply (tally_inv_final ops (constructor a) (tally_inv_constructor a)).
Qed.

Lemma voteCount_is_number_of_records_witness :
  voteCount (mkCandidate "Alice" 2) =
  N.of_nat (tally (final (constructor 1)
                     [AddCandidate 1 "Alice"; AddCandidate 1 "Bob"; CastVote 11 0;
                      CastVote 12 0; CastVote 13 1; CastVote 11 1]) (N.of_nat 0)).
Proof.
  apply (voteCount_is_number_of_records 1
           [AddCandidate 1 "Alice"; AddCandidate 1 "Bob"; CastVote 11 0;
            CastVote 12 0; CastVote 13 1; CastVote 11 1] 0 (mkCandidate "Alice" 2)).
  vm_compute. reflexivity.
Defined.

(** ** One vote per address *)

Lemma votes_cast_by_app (v : address) (l1 l2 : list Event) :
  votes_cast_by v (l1 ++ l2) = votes_cast_by v l1 ++ votes_cast_by v l2.
Proof. apply omap_app. Qed.

Lemma successful_votes_by_cons (v : address) (op : Op) (r : Receipt unit)
    (h : list (Op * Receipt unit)) :
  successful_votes_by v ((op, r) :: h) =
  if is_vote_by v op && is_success r
  then (op, r) :: successful_votes_by v h
  else successful_votes_by v h.
Proof.
  unfold successful_votes_by. rewrite filter_cons. simpl.
  by destruct (is_vote_by v op && is_success r).
Qed.

(** How the votes of [v] in a history relate to the record of [v]: the
    successful votes are the [VoteCast] events of [v]; an address with a
    record casts no further vote and keeps its record; an address without a
    record casts at most one, which becomes its record. *)
Lemma votes_history (v : address) (ops : list Op) : ∀ s : Storage,
  length (successful_votes_by v (history s ops)) =
    length (votes_cast_by v (events s ops)) ∧
  (is_Some (voteRecord s v) →
   votes_cast_by v (events s ops) = [] ∧
   voteRecord (final s ops) v = voteRecord s v) ∧
  (voteRecord s v = None →
   (length (votes_cast_by v (events s ops)) ≤ 1)%nat ∧
   voteRecord (final s ops) v = head (votes_cast_by v (events s ops))).
Proof.
  induction ops as [|op ops IH]; intros s.
  { split_and!; [done | done | intros Hn; split; [simpl; lia | exact Hn]]. }
  rewrite history_cons, events_cons, final_cons, votes_cast_by_app,
    successful_votes_by_cons.
  step_cases s op.
  - simpl. rewrite andb_false_r. apply IH.
  - simpl.
    change (voteRecord (push_candidate (mkCandidate nm 0) s) v)
      with (voteRecord s v) in IH.
    destruct (IH (push_candidate (mkCandidate nm 0) s)) as (Hlen & Hsome & Hnone).
    by split_and!.
  - set (s' := mkStorage _ _ _ _).
    destruct (IH s') as (Hlen & Hsome & Hnone). simpl.
    destruct (N.eqb_spec voter v) as [->|Hne]; simpl.
    + assert (Hafter : voteRecord s' v = Some idx).
      { unfold voteRecord, mapping_get, s'; simpl. by rewrite !lookup_insert_eq. }
      destruct Hsome as [Hnil Hfinal]; [by rewrite Hafter|].
      rewrite Hnil in *. simpl in *.
      split_and!.
      * by rewrite Hlen.
      * intros Hrec%voteRecord_is_Some. congruence.
      * intros _. split; [lia|]. by rewrite Hfinal.
    + assert (Hsame : voteRecord s' v = voteRecord s v).
      { unfold voteRecord, mapping_get, s'; simpl. by rewrite !lookup_insert_ne. }
      rewrite Hsame in *. by split_and!.
Qed.

(** C4. Take any address [v] and any sequence of transactions from any
    storage.  At most one [vote] of [v] in it succeeds.  If a [vote] of [v]
    in it succeeds, then after the rest of the sequence, whatever it
    contains, a further [vote] of [v] with any index reverts with
    [AlreadyVoted] before writing anything, and leaves the whole storage, in
    particular every [voteCount], unchanged.  From a freshly deployed
    contract, [v] is announced in at most one [VoteCast] event, and the vote
    record of [v] in the reached state is the index of that event if there is
    one and absent otherwise. *)
Theorem at_most_one_vote_per_address (s : Storage) (ops : list Op) (v : address) :
  (length (successful_votes_by v (history s ops)) ≤ 1)%nat ∧
  (∀ pre i rest j,
     ops = pre ++ CastVote v i :: rest →
     is_success (snd (transact (vote v i) (final s pre))) = true →
     vote v j (final s ops) = Revert AlreadyVoted (final s ops) ∧
     transact (vote v j) (final s ops) = (final s ops, Failure AlreadyVoted) ∧
     candidates (fst (transact (vote v j) (final s ops))) = candidates (final s ops)) ∧
  (∀ a,
     (length (votes_cast_by v (events (constructor a) ops)) ≤ 1)%nat ∧
     voteRecord (final (constructor a) ops) v =
       head (votes_cast_by v (events (constructor a) ops))).
Proof.
  split_and!.
  - destruct (votes_history v ops s) as (Hlen & Hsome & Hnone). rewrite Hlen.
    destruct (voteRecord s v) as [k|] eqn:Hrec.
    + destruct Hsome as [-> _]; [by eexists|]. simpl. lia.
    + by apply Hnone.
  - intros pre i rest j -> Hok.
    rewrite final_app, final_cons.
    assert (Hrec : is_Some (voteRecord (step (final s pre) (CastVote v i)) v)).
    { unfold step. simpl.
      destruct (transact (vote v i) (final s pre)) as [s1 [[] log|e]] eqn:Ht; [|done].
      apply vote_success_inv in Ht as (c & _ & _ & _ & _ & _ & ->).
      unfold voteRecord, mapping_get; simpl. rewrite !lookup_insert_eq. by eexists. }
    destruct (votes_history v rest (step (final s pre) (CastVote v i))) as (_ & Hsome & _).
    destruct (Hsome Hrec) as [_ Hkeep]. rewrite <- Hkeep in Hrec.
    apply voteRecord_is_Some in Hrec.
    set (s2 := final (step (final s pre) (CastVote v i)) rest) in *.
    assert (Hbody : vote v j s2 = Revert AlreadyVoted s2) by by rewrite vote_cases, Hrec.
    unfold transact. rewrite Hbody. done.
  - intros a. destruct (votes_history v ops (constructor a)) as (_ & _ & Hnone).
    by apply Hnone.
Qed.

Lemma at_most_one_vote_per_address_witness :
  transact (vote 11 1)
    (final (constructor 1)
       ([AddCandidate 1 "Alice"; AddCandidate 1 "Bob"] ++
        CastVote 11 0 :: [CastVote 12 1])) =
  (final (constructor 1)
     ([AddCandidate 1 "Alice"; AddCandidate 1 "Bob"] ++
      CastVote 11 0 :: [CastVote 12 1]),
   Failure AlreadyVoted).
Proof.
  apply (proj1 (proj2 (at_most_one_vote_per_address (constructor 1)
           ([AddCandidate 1 "Alice"; AddCandidate 1 "Bob"] ++
            CastVote 11 0 :: [CastVote 12 1]) 11))
           [AddCandidate 1 "Alice"; AddCandidate 1 "Bob"] 0 [CastVote 12 1] 1).
  - reflexivity.
  - vm_compute. reflexivity.
Defined.

(** ** The scenarios of the test suite *)

Section Scenarios.

Let admin0 : address := 1.
Let voter1 : address := 11.
Let voter2 : address := 12.
Let voter3 : address := 13.
Let voter4 : address := 14.

Let election : list Op :=
  [AddCandidate admin0 "Alice"; AddCandidate admin0 "Bob"; AddCandidate admin0 "Charlie";
   CastVote voter1 0; CastVote voter2 0; CastVote voter3 1].

Example scenario_counts :
  map voteCount (candidates (final (constructor admin0) election)) = [2; 1; 0].
Proof. vm_compute. reflexivity. Qed.

Example scenario_winner :
  snd (transact getWinner (final (constructor admin0) election)) = Success "Alice" [].
Proof. vm_compute. reflexivity. Qed.

Example scenario_hasVoted :
  map (λ v, snd (transact (hasAddressVoted v) (final (constructor admin0) election)))
    [voter1; voter2; voter3; voter4] =
  [Success true []; Success true []; Success true []; Success false []].
Proof. vm_compute. reflexivity. Qed.

Example scenario_tie :
  snd (transact getWinner
         (final (constructor admin0)
            [AddCandidate admin0 "A"; AddCandidate admin0 "B";
             CastVote voter1 0; CastVote voter2 1])) = Success "A" [].
Proof. vm_compute. reflexivity. Qed.

Example scenario_no_candidates :
  snd (transact getWinner (constructor admin0)) = Failure NoCandidates.
Proof. reflexivity. Qed.

Example scenario_index_equal_to_length :
  snd (transact (vote voter4 3) (final (constructor admin0) election)) =
  Failure (InvalidCandidateIndex 3).
Proof. vm_compute. reflexivity. Qed.

(** A name of 101 characters passes the contract and not the validator. *)
Example scenario_long_name :
  let long := String.concat "" (replicate 101 "a") in
  is_success (snd (transact (addCandidate admin0 long) (constructor admin0))) = true ∧
  validateAddCandidate (Str long) =
    Rejected 400 "Candidate name too long (max 100 characters)".
Proof. vm_compute. split; reflexivity. Qed.

End Scenarios.

(** * Further properties of the contract *)

(** ** What no transaction changes *)

Lemma step_admin (s : Storage) (op : Op) : admin (step s op) = admin s.
Proof. by step_cases s op. Qed.

(** X1. [admin] is fixed by the constructor: after any sequence of
    transactions, successful or not, it is the address that deployed the
    contract (and from any storage, the admin it had). *)
Theorem admin_never_changes (s : Storage) (ops : list Op) :
  admin (final s ops) = admin s ∧
  ∀ a, admin (final (constructor a) ops) = a.
Proof.
  assert (H : ∀ s', admin (final s' ops) = admin s').
  { induction ops as [|op ops IH]; intros s'; [done|].
    by rewrite final_cons, IH, step_admin. }
  split; [apply H | intros a; apply H].
Qed.

Lemma successful_adds_cons (op : Op) (r : Receipt unit) (h : list (Op * Receipt unit)) :
  successful_adds ((op, r) :: h) =
  if is_add op && is_success r then (op, r) :: successful_adds h else successful_adds h.
Proof.
  unfold successful_adds. rewrite filter_cons. simpl.
  by destruct (is_add op && is_success r).
Qed.

Lemma names_history (ops : list Op) : ∀ s : Storage,
  name <$> candidates (final s ops) =
  (name <$> candidates s) ++ ((λ h, op_name (fst h)) <$> successful_adds (history s ops)).
Proof.
  induction ops as [|op ops IH]; intros s; [simpl; by rewrite app_nil_r|].
  rewrite final_cons, IH, history_cons, successful_adds_cons. step_cases s op.
  - simpl. by rewrite andb_false_r.
  - simpl. by rewrite fmap_app, <- app_assoc.
  - simpl. rewrite list_fmap_insert. simpl. rewrite list_insert_id; [done|].
    by rewrite list_lookup_fmap, Hcand.
Qed.

Lemma step_candidate_kept (s : Storage) (op : Op) (i : nat) (c : Candidate) :
  candidates s !! i = Some c →
  ∃ c', candidates (step s op) !! i = Some c' ∧ name c' = name c ∧
        voteCount c ≤ voteCount c'.
Proof.
  intros Hc. step_cases s op.
  - exists c. split_and!; [done | done | lia].
  - exists c. split_and!; [by apply lookup_app_l_Some | done | lia].
  - simpl. destruct (decide (i = N.to_nat idx)) as [->|Hne].
    + eexists. split_and!.
      * apply list_lookup_insert_eq. by eapply lookup_lt_Some.
      * simpl. congruence.
      * simpl. assert (c = cand) as -> by congruence. lia.
    + exists c. split_and!; [by rewrite list_lookup_insert_ne | done | lia].
Qed.

(** X2. The candidate array is append-only.  After any sequence of
    transactions from any storage, the names in the array are the names it
    had, in place, followed by the names of the successful [addCandidate]
    calls in order; a candidate never moves, is never renamed or removed, and
    its [voteCount] never decreases. *)
Theorem candidates_append_only (s : Storage) (ops : list Op) :
  name <$> candidates (final s ops) =
    (name <$> candidates s) ++
    ((λ h, op_name (fst h)) <$> successful_adds (history s ops)) ∧
  length (candidates (final s ops)) =
    (length (candidates s) + length (successful_adds (history s ops)))%nat ∧
  ∀ i c, candidates s !! i = Some c →
         ∃ c', candidates (final s ops) !! i = Some c' ∧ name c' = name c ∧
               voteCount c ≤ voteCount c'.
Proof.
  split_and!.
  - apply names_history.
  - pose proof (f_equal length (names_history ops s)) as H.
    by rewrite length_app, !length_fmap in H.
  - revert s. induction ops as [|op ops IH]; intros s i c Hc.
    + exists c. split_and!; [done | done | lia].
    + destruct (step_candidate_kept s op i c Hc) as (c1 & Hc1 & Hn1 & Hv1).
      destruct (IH (step s op) i c1 Hc1) as (c' & Hc' & Hn' & Hv').
      exists c'. rewrite final_cons. split_and!; [done | congruence | lia].
Qed.

Lemma candidates_append_only_witness :
  ∃ c', candidates (final (mkStorage 1 [mkCandidate "A" 3] ∅ ∅)
                      [CastVote 7 0; AddCandidate 1 "B"]) !! 0%nat = Some c' ∧
        name c' = name (mkCandidate "A" 3) ∧
        voteCount (mkCandidate "A" 3) ≤ voteCount c'.
Proof.
  apply (proj2 (proj2 (candidates_append_only (mkStorage 1 [mkCandidate "A" 3] ∅ ∅)
                         [CastVote 7 0; AddCandidate 1 "B"]))).
  reflexivity.
Defined.

(** X3. A vote is final: once an address has a vote record, no sequence of
    transactions, by anyone, changes or removes it; [hasAddressVoted] keeps
    answering [true] for that address. *)
Theorem vote_record_is_permanent (s : Storage) (ops : list Op) (v : address) (i : uint256) :
  voteRecord s v = Some i →
  voteRecord (final s ops) v = Some i ∧
  hasAddressVoted v (final s ops) = Return true (final s ops) [].
Proof.
  intros Hrec. destruct (votes_history v ops s) as (_ & Hsome & _).
  destruct Hsome as [_ Hkeep]; [by rewrite Hrec|].
  rewrite Hrec in Hkeep. split; [done|].
  unfold hasAddressVoted, gets.
  assert (is_Some (voteRecord (final s ops) v)) as ->%voteRecord_is_Some by by eexists.
  done.
Qed.

Lemma vote_record_is_permanent_witness :
  voteRecord (final (mkStorage 1 [mkCandidate "A" 1; mkCandidate "B" 0] {[5 := true]} {[5 := 0]})
                [CastVote 5 1; CastVote 6 1; AddCandidate 1 "C"]) 5 = Some 0.
Proof.
  apply (vote_record_is_permanent
           (mkStorage 1 [mkCandidate "A" 1; mkCandidate "B" 0] {[5 := true]} {[5 := 0]})
           [CastVote 5 1; CastVote 6 1; AddCandidate 1 "C"] 5 0).
  reflexivity.
Defined.

(** ** The ledger and its event log *)

Lemma votes_cast_for_app (i : uint256) (l1 l2 : list Event) :
  votes_cast_for i (l1 ++ l2) = votes_cast_for i l1 ++ votes_cast_for i l2.
Proof. apply omap_app. Qed.

(** Every [voteCount] after a history is the count before it (0 for an index
    that did not exist yet) plus the number of [VoteCast] events for it. *)
Lemma count_history (ops : list Op) : ∀ (s : Storage) (i : nat) (c' : Candidate),
  candidates (final s ops) !! i = Some c' →
  voteCount c' =
  from_option voteCount 0 (candidates s !! i) +
  N.of_nat (length (votes_cast_for (N.of_nat i) (events s ops))).
Proof.
  induction ops as [|op ops IH]; intros s i c' Hc'.
  { simpl in Hc'. rewrite Hc'. simpl. lia. }
  rewrite final_cons in Hc'. rewrite (IH _ _ _ Hc').
  rewrite events_cons, votes_cast_for_app, length_app. clear IH Hc'.
  step_cases s op; simpl.
  - lia.
  - destruct (candidates s !! i) as [c|] eqn:Hc.
    + rewrite (lookup_app_l_Some _ _ _ _ Hc). simpl. lia.
    + apply lookup_ge_None in Hc.
      destruct (decide (i = length (candidates s))) as [->|Hne].
      * rewrite lookup_app_r, Nat.sub_diag by done. simpl. lia.
      * rewrite lookup_ge_None_2 by (rewrite length_app; simpl; lia). simpl. lia.
  - destruct (decide (i = N.to_nat idx)) as [->|Hne].
    + rewrite list_lookup_insert_eq by by eapply lookup_lt_Some.
      rewrite Hcand, N2Nat.id, N.eqb_refl. simpl. lia.
    + rewrite list_lookup_insert_ne by done.
      destruct (N.eqb_spec idx (N.of_nat i)) as [->|_].
      * rewrite Nat2N.id in Hne. done.
      * simpl. lia.
Qed.

(** X4. The contract state can be audited from its events: after any
    sequence of transactions on a freshly deployed contract, the candidate
    array is exactly the one rebuilt from the event log, with one candidate
    per [CandidateAdded] event, in order and under the announced name, whose
    [voteCount] is the number of [VoteCast] events for its index. *)
Theorem candidates_rebuilt_from_events (a : address) (ops : list Op) :
  candidates (final (constructor a) ops) =
  candidates_of_log (events (constructor a) ops).
Proof.
  apply list_eq. intros i. unfold candidates_of_log.
  rewrite list_lookup_fmap, added_candidates_history, list_lookup_imap.
  pose proof (names_history ops (constructor a)) as Hnames.
  apply (f_equal (λ l, l !! i)) in Hnames.
  rewrite !list_lookup_fmap in Hnames. simpl in Hnames.
  rewrite list_lookup_fmap in Hnames.
  destruct (candidates (final (constructor a) ops) !! i) as [c|] eqn:Hc;
    destruct (successful_adds (history (constructor a) ops) !! i) as [h|] eqn:Hh;
    simpl in *; try done.
  injection Hnames as Hname. rewrite <- Hname.
  pose proof (count_history ops (constructor a) i c Hc) as Hcount. simpl in Hcount.
  destruct c as [nm vc]. simpl in *. by rewrite Hcount.
Qed.

Lemma votes_cast_for_length (i : uint256) (log : list Event) :
  (length (votes_cast_for i log) ≤ length log)%nat.
Proof.
  induction log as [|[k nm|voter k] log IH]; simpl; [lia | lia |].
  unfold votes_cast_for in *. simpl. destruct (k =? i); simpl; lia.
Qed.

Lemma events_length (ops : list Op) : ∀ s : Storage,
  (length (events s ops) ≤ length ops)%nat.
Proof.
  induction ops as [|op ops IH]; intros s; [done|].
  rewrite events_cons, length_app. specialize (IH (step s op)).
  step_cases s op; simpl; lia.
Qed.

(** X5. An eligible vote goes through.  On a contract deployed and then used
    for fewer than 2^256 - 1 transactions, a [vote] from an address without a
    vote record for an index below [candidates.length] succeeds: it emits
    [VoteCast] and records the vote; the overflow check of [voteCount++]
    never fires. *)
Theorem eligible_vote_succeeds (a : address) (ops : list Op) (v : address) (i : uint256) :
  N.of_nat (length ops) < MAX_UINT256 →
  voteRecord (final (constructor a) ops) v = None →
  i < candidates_length (final (constructor a) ops) →
  ∃ s', transact (vote v i) (final (constructor a) ops) = (s', Success tt [VoteCast v i]) ∧
        voteRecord s' v = Some i.
Proof.
  intros Hshort Hrec%voteRecord_None Hidx.
  set (s := final (constructor a) ops) in *.
  destruct (candidates s !! N.to_nat i) as [c|] eqn:Hc.
  2: { apply lookup_ge_None in Hc. unfold candidates_length in Hidx. lia. }
  assert (Hvc : voteCount c < MAX_UINT256).
  { rewrite (count_history ops (constructor a) _ c Hc). simpl.
    pose proof (events_length ops (constructor a)) as Hev.
    pose proof (votes_cast_for_length (N.of_nat (N.to_nat i))
                  (events (constructor a) ops)) as Hom.
    lia. }
  unfold transact. rewrite vote_cases, Hrec, Hc.
  destruct (N.leb_spec (candidates_length s) i); [lia|].
  destruct (N.leb_spec MAX_UINT256 (voteCount c)); [lia|].
  eexists. split; [done|].
  unfold voteRecord, mapping_get. simpl. by rewrite !lookup_insert_eq.
Qed.

Lemma eligible_vote_succeeds_witness :
  ∃ s', transact (vote 11 1)
          (final (constructor 1) [AddCandidate 1 "Alice"; AddCandidate 1 "Bob"; CastVote 12 1]) =
        (s', Success tt [VoteCast 11 1]) ∧
        voteRecord s' 11 = Some 1.
Proof.
  apply (eligible_vote_succeeds 1
           [AddCandidate 1 "Alice"; AddCandidate 1 "Bob"; CastVote 12 1] 11 1).
  - reflexivity.
  - reflexivity.
  - reflexivity.
Defined.

(** ** Totals *)

Lemma sum_voteCounts_app (cs1 cs2 : list Candidate) :
  sum_voteCounts (cs1 ++ cs2) = sum_voteCounts cs1 + sum_voteCounts cs2.
Proof. induction cs1 as [|c cs1 IH]; simpl; [done|]. rewrite IH. lia. Qed.

Lemma sum_voteCounts_insert (cs : list Candidate) : ∀ (i : nat) (c : Candidate) (v : uint256),
  cs !! i = Some c →
  sum_voteCounts (<[i := mkCandidate (name c) v]> cs) + voteCount c = sum_voteCounts cs + v.
Proof.
  induction cs as [|c0 cs IH]; intros i c v Hc; [done|].
  destruct i as [|i]; simpl in *.
  - injection Hc as ->. lia.
  - specialize (IH i c v Hc). lia.
Qed.

(** X6. No vote is lost or counted twice: after any sequence of transactions
    on a freshly deployed contract, the vote counts of all candidates add up
    to the number of addresses that have a vote record. *)
Theorem total_votes_is_number_of_voters (a : address) (ops : list Op) :
  sum_voteCounts (candidates (final (constructor a) ops)) =
  N.of_nat (size (voteRecords (final (constructor a) ops))).
Proof.
  assert (H : ∀ s, sum_voteCounts (candidates s) = N.of_nat (size (voteRecords s)) →
                   sum_voteCounts (candidates (final s ops)) =
                   N.of_nat (size (voteRecords (final s ops)))).
  { induction ops as [|op ops IH]; intros s Hs; [done|].
    rewrite final_cons. apply IH. step_cases s op; [done| |].
    - simpl. rewrite sum_voteCounts_app. simpl.
      change (voteRecords (push_candidate (mkCandidate nm 0) s)) with (voteRecords s). lia.
    - pose proof (sum_voteCounts_insert _ _ _ (voteCount cand + 1) Hcand) as Hsum.
      destruct s as [adm cs hv vtc]; simpl in *.
      rewrite (voteRecords_after_vote adm cs), map_size_insert_None.
      + lia.
      + rewrite voteRecords_lookup. by apply voteRecord_None. }
  apply H. done.
Qed.

(** ** Names *)

Lemma names_nonempty_reachable (a : address) (ops : list Op) :
  Forall (λ c, name c ≠ "") (candidates (final (constructor a) ops)).
Proof.
  apply Forall_forall. intros c Hc.
  assert (H : ∀ s, Forall (λ c, name c ≠ "") (candidates s) →
                   Forall (λ c, name c ≠ "") (candidates (final s ops))).
  { clear. induction ops as [|op ops IH]; intros s Hs; [done|].
    rewrite final_cons. apply IH. step_cases s op; [done| |]; simpl.
    - apply Forall_app. split; [done|]. by apply Forall_singleton.
    - apply Forall_insert; [done|]. simpl.
      by apply (proj1 (Forall_lookup _ _) Hs (N.to_nat idx)). }
  by apply (proj1 (Forall_forall _ _) (H (constructor a) (Forall_nil_2 _))).
Qed.

(** X7. Every candidate the contract ever stores has a non-empty name: after
    any sequence of transactions on a freshly deployed contract no candidate
    of the array has the empty name. *)
Theorem candidate_names_are_nonempty (a : address) (ops : list Op) (c : Candidate) :
  c ∈ candidates (final (constructor a) ops) → name c ≠ "".
Proof.
  intros Hc. by apply (proj1 (Forall_forall _ _) (names_nonempty_reachable a ops)).
Qed.

Lemma candidate_names_are_nonempty_witness : name (mkCandidate "Bob" 1) ≠ "".
Proof.
  apply (candidate_names_are_nonempty 1
           [AddCandidate 1 ""; AddCandidate 1 "Bob"; CastVote 9 0] (mkCandidate "Bob" 1)).
  vm_compute. apply list_elem_of_here.
Defined.

(** ** The order of votes *)

Lemma step_vote (s : Storage) (v : address) (i : uint256) :
  step s (CastVote v i) =
  if mapping_get false (hasVoted s) v then s
  else match candidates s !! N.to_nat i with
       | Some c =>
           if MAX_UINT256 <=? voteCount c then s
           else mkStorage (admin s)
                  (<[N.to_nat i := mkCandidate (name c) (voteCount c + 1)]> (candidates s))
                  (<[v := true]> (hasVoted s))
                  (<[v := i]> (voterToCandidate s))
       | None => s
       end.
Proof.
  unfold step, transact. simpl. rewrite vote_cases.
  destruct (mapping_get false (hasVoted s) v); [done|].
  destruct (N.leb_spec (candidates_length s) i) as [Hge|Hlt].
  - rewrite lookup_ge_None_2; [done|]. unfold candidates_length in Hge. lia.
  - destruct (candidates s !! N.to_nat i) as [c|]; [|done].
    by destruct (MAX_UINT256 <=? voteCount c).
Qed.

(** X9. Votes of different addresses commute: when no candidate is within
    one vote of the largest [uint256], sending the votes of two different
    addresses in either order reaches the same storage, whether each of them
    succeeds or fails. *)
Theorem votes_of_different_addresses_commute
    (s : Storage) (u v : address) (i j : uint256) :
  u ≠ v →
  (∀ c, c ∈ candidates s → voteCount c + 1 < MAX_UINT256) →
  final s [CastVote u i; CastVote v j] = final s [CastVote v j; CastVote u i].
Proof.
  intros Huv Hroom. unfold final. cbn [foldl].
  assert (Hfits : ∀ k c, candidates s !! k = Some c →
                         (MAX_UINT256 <=? voteCount c) = false ∧
                         (MAX_UINT256 <=? voteCount c + 1) = false).
  { intros k c Hc. apply list_elem_of_lookup_2, Hroom in Hc.
    split; apply N.leb_gt; lia. }
  destruct s as [adm cs hv vtc]. cbn [candidates] in Hfits. clear Hroom.
  rewrite (step_vote (mkStorage adm cs hv vtc) u i), (step_vote (mkStorage adm cs hv vtc) v j).
  cbn [admin candidates hasVoted voterToCandidate].
  destruct (mapping_get false hv u) eqn:Hu; destruct (mapping_get false hv v) eqn:Hv;
    destruct (cs !! N.to_nat i) as [ci|] eqn:Hi;
    destruct (cs !! N.to_nat j) as [cj|] eqn:Hj;
    try (destruct (Hfits _ _ Hi) as [Hi0 Hi1]; rewrite ?Hi0);
    try (destruct (Hfits _ _ Hj) as [Hj0 Hj1]; rewrite ?Hj0);
    rewrite ?step_vote; cbn [admin candidates hasVoted voterToCandidate];
    unfold mapping_get in *; rewrite ?lookup_insert_ne by done;
    rewrite ?Hu, ?Hv; cbn [default]; rewrite ?Hi, ?Hj, ?Hi0, ?Hj0; try done.
  - destruct (decide (N.to_nat i = N.to_nat j)) as [Heq|Hne].
    + rewrite <- Heq in *. assert (cj = ci) as -> by congruence.
      rewrite !list_lookup_insert_eq by by eapply lookup_lt_Some.
      cbn [name voteCount]. rewrite Hi1, !list_insert_insert_eq.
      f_equal; by apply insert_insert_ne.
    + rewrite !list_lookup_insert_ne by done. rewrite Hi, Hj, Hi0, Hj0.
      f_equal; [by apply list_insert_insert_ne | by apply insert_insert_ne
               | by apply insert_insert_ne].
  - rewrite list_lookup_insert_ne, Hj; [done|]. intros Heq. congruence.
  - rewrite list_lookup_insert_ne, Hi; [done|]. intros Heq. congruence.
Qed.

Lemma votes_of_different_addresses_commute_witness :
  final (mkStorage 1 [mkCandidate "A" 0; mkCandidate "B" 4] ∅ ∅) [CastVote 7 1; CastVote 8 1] =
  final (mkStorage 1 [mkCandidate "A" 0; mkCandidate "B" 4] ∅ ∅) [CastVote 8 1; CastVote 7 1].
Proof.
  apply (votes_of_different_addresses_commute
           (mkStorage 1 [mkCandidate "A" 0; mkCandidate "B" 4] ∅ ∅) 7 8 1 1).
  - done.
  - intros c Hc. simpl in Hc.
    apply elem_of_cons in Hc as [->|Hc]; [reflexivity|].
    apply elem_of_cons in Hc as [->|Hc]; [reflexivity|].
    by apply elem_of_nil in Hc.
Defined.

(** * The error-handling middleware *)

Lemma string_app_cons (a : ascii) (s t : string) :
  String a s +:+ t = String a (s +:+ t).
Proof. reflexivity. Qed.

Lemma string_app_nil_r (s : string) : s +:+ "" = s.
Proof. induction s as [|a s IH]; [done|]. by rewrite string_app_cons, IH. Qed.

Lemma string_app_assoc (s t u : string) : (s +:+ t) +:+ u = s +:+ t +:+ u.
Proof. induction s as [|a s IH]; [done|]. by rewrite !string_app_cons, IH. Qed.

Lemma string_app_length (s t : string) :
  String.length (s +:+ t) = (String.length s + String.length t)%nat.
Proof. induction s as [|a s IH]; [done|]. rewrite string_app_cons. simpl. by rewrite IH. Qed.

Lemma strip_prefix_app (p t : string) : strip_prefix p (p +:+ t) = Some t.
Proof.
  induction p as [|a p IH]; [done|].
  rewrite string_app_cons. simpl. by rewrite Ascii.eqb_refl.
Qed.

Lemma strip_prefix_Some (p : string) : ∀ s t, strip_prefix p s = Some t → s = p +:+ t.
Proof.
  induction p as [|a p IH]; intros s t H; simpl in H; [by injection H as ->|].
  destruct s as [|b s]; [done|].
  destruct (Ascii.eqb_spec a b) as [->|]; [|done].
  rewrite string_app_cons. f_equal. by apply IH.
Qed.

(** A prefix test looks at no more characters than the prefix has. *)
Lemma starts_with_app (p : string) : ∀ x y,
  (String.length p ≤ String.length x)%nat →
  starts_with p (x +:+ y) = starts_with p x.
Proof.
  unfold starts_with. induction p as [|a p IH]; intros x y Hlen; [done|].
  destruct x as [|b x]; [simpl in Hlen; lia|].
  rewrite string_app_cons. simpl. destruct (Ascii.eqb a b); [|done].
  apply IH. simpl in Hlen. lia.
Qed.

Lemma includes_app (needle pre post : string) :
  includes (pre +:+ needle +:+ post) needle = true.
Proof.
  induction pre as [|a pre IH].
  - change ("" +:+ needle +:+ post) with (needle +:+ post).
    assert (starts_with needle (needle +:+ post) = true) as Hs.
    { unfold starts_with. by rewrite strip_prefix_app. }
    destruct (needle +:+ post); simpl; by rewrite Hs.
  - rewrite string_app_cons. simpl. rewrite IH. apply orb_true_r.
Qed.

Lemma lazy_reason_sound (s : string) : ∀ r,
  lazy_reason s = Some r →
  r ≠ "" ∧ string_forallb (λ a, negb (is_line_terminator a)) r = true ∧
  ∃ post, s = r +:+ post ∧ (post = "" ∨ ∃ t, post = String double_quote t).
Proof.
  induction s as [|a s IH]; intros r H; [done|]. simpl in H.
  destruct (is_line_terminator a) eqn:Ha; [done|].
  destruct s as [|b s].
  - injection H as <-. split_and!; [done | by simpl; rewrite Ha |].
    exists "". split; [done | by left].
  - destruct (Ascii.eqb_spec b double_quote) as [->|Hb].
    + injection H as <-. split_and!; [done | by simpl; rewrite Ha |].
      exists (String double_quote s). split; [done | right; by eexists].
    + destruct (lazy_reason (String b s)) as [r'|] eqn:Hr'; [|done].
      injection H as <-. destruct (IH r' eq_refl) as (_ & Hlt & post & Hs & Hpost).
      split_and!; [done | by simpl; rewrite Ha, Hlt |].
      exists post. split; [|done]. by rewrite string_app_cons, <- Hs.
Qed.

Lemma lazy_reason_complete (r : string) : ∀ post,
  r ≠ "" →
  string_forallb (λ a, negb (is_line_terminator a)) r = true →
  string_forallb (λ a, negb (Ascii.eqb a double_quote)) r = true →
  (post = "" ∨ ∃ t, post = String double_quote t) →
  lazy_reason (r +:+ post) = Some r.
Proof.
  induction r as [|a r IH]; intros post Hne Hlt Hq Hpost; [done|].
  simpl in Hlt, Hq. apply andb_true_iff in Hlt as [Ha Hlt].
  apply andb_true_iff in Hq as [_ Hq].
  rewrite string_app_cons. simpl. apply negb_true_iff in Ha. rewrite Ha.
  destruct r as [|b r].
  - change ("" +:+ post) with post. destruct Hpost as [->|[t ->]]; [done|].
    by rewrite Ascii.eqb_refl.
  - rewrite string_app_cons. simpl in Hq. apply andb_true_iff in Hq as [Hb Hq'].
    apply negb_true_iff in Hb. rewrite Hb.
    rewrite <- string_app_cons, IH; [done | done | done | | done].
    simpl. by rewrite Hb, Hq'.
Qed.

Lemma match_revert_sound (s : string) : ∀ r,
  match_revert s = Some r →
  ∃ pre post, s = pre +:+ "revert " +:+ r +:+ post ∧
              r ≠ "" ∧ string_forallb (λ a, negb (is_line_terminator a)) r = true ∧
              (post = "" ∨ ∃ t, post = String double_quote t).
Proof.
  assert (Hhere : ∀ s r, strip_prefix "revert " s ≫= lazy_reason = Some r →
    ∃ post, s = "revert " +:+ r +:+ post ∧ r ≠ "" ∧
            string_forallb (λ a, negb (is_line_terminator a)) r = true ∧
            (post = "" ∨ ∃ t, post = String double_quote t)).
  { intros s' r H. destruct (strip_prefix "revert " s') as [rest|] eqn:Hp; [|done].
    simpl in H. apply strip_prefix_Some in Hp.
    destruct (lazy_reason_sound _ _ H) as (Hne & Hlt & post & -> & Hpost).
    by exists post. }
  induction s as [|a s IH]; intros r H.
  - simpl in H. done.
  - cbn [match_revert] in H.
    destruct (strip_prefix "revert " (String a s) ≫= lazy_reason) as [r0|] eqn:Hm.
    + injection H as ->. destruct (Hhere _ _ Hm) as (post & Hs & ?).
      exists "", post. by rewrite Hs.
    + destruct (IH r H) as (pre & post & -> & ?).
      exists (String a pre), post. by rewrite string_app_cons.
Qed.

(** The leftmost occurrence decides: when the word with its space does not
    occur earlier, the capture is the one found right after [pre]. *)
Lemma match_revert_first (pre : string) : ∀ rest r,
  includes (pre +:+ "revert") "revert " = false →
  lazy_reason rest = Some r →
  match_revert (pre +:+ "revert " +:+ rest) = Some r.
Proof.
  induction pre as [|a pre IH]; intros rest r Hpre Hrest.
  - change ("" +:+ "revert " +:+ rest) with ("revert " +:+ rest).
    assert (Hs : strip_prefix "revert " ("revert " +:+ rest) ≫= lazy_reason = Some r).
    { by rewrite strip_prefix_app. }
    change ("revert " +:+ rest) with (String "r" ("evert " +:+ rest)) in *.
    cbn [match_revert]. by rewrite Hs.
  - rewrite string_app_cons in Hpre. cbn [includes] in Hpre.
    apply orb_false_iff in Hpre as [Hhere Hlater].
    rewrite string_app_cons. cbn [match_revert].
    assert (Hno : strip_prefix "revert " (String a (pre +:+ "revert " +:+ rest)) = None).
    { replace (String a (pre +:+ "revert " +:+ rest))
        with (String a (pre +:+ "revert") +:+ " " +:+ rest)
        by (rewrite string_app_cons, string_app_assoc; reflexivity).
      assert (Hsw : starts_with "revert " (String a (pre +:+ "revert") +:+ " " +:+ rest) = false).
      { rewrite starts_with_app; [done|]. simpl. rewrite string_app_length. simpl. lia. }
      unfold starts_with in Hsw. by destruct (strip_prefix _ _). }
    rewrite Hno. simpl. by apply IH.
Qed.

(** X10. An error whose message contains the word revert is always answered
    with status 400, whatever its own status and whatever else the message
    contains.  The answer is either the bare text, or the text followed by a
    reason that really stands in the message: right after the word and a
    space, non-empty, on one line, and ending where a double quote or the end
    of the message follows. *)
Theorem errorHandler_revert_is_400 (development : bool) (err : JsError) (m : string) :
  err_message err = Some m →
  includes m "revert" = true →
  ∃ text,
    errorHandler development err =
      Responded (mkErrorReply 400 text (if development then err_stack err else None)) ∧
    (text = "Transaction reverted" ∨
     ∃ pre reason post,
       m = pre +:+ "revert " +:+ reason +:+ post ∧
       reason ≠ "" ∧
       string_forallb (λ a, negb (is_line_terminator a)) reason = true ∧
       (post = "" ∨ ∃ t, post = String double_quote t) ∧
       text = "Transaction reverted: " +:+ reason).
Proof.
  intros Hm Hinc. unfold errorHandler. rewrite Hm, Hinc.
  destruct (match_revert m) as [reason|] eqn:Hr.
  - eexists. split; [done|]. right.
    destruct (match_revert_sound _ _ Hr) as (pre & post & ? & ? & ? & ?).
    by exists pre, reason, post.
  - eexists. split; [done|]. by left.
Qed.

Lemma errorHandler_revert_is_400_witness :
  ∃ text,
    errorHandler false (mkJsError (Some 502) (Some "VM Exception: revert Already voted") None) =
      Responded (mkErrorReply 400 text None) ∧
    (text = "Transaction reverted" ∨
     ∃ pre reason post,
       "VM Exception: revert Already voted" = pre +:+ "revert " +:+ reason +:+ post ∧
       reason ≠ "" ∧
       string_forallb (λ a, negb (is_line_terminator a)) reason = true ∧
       (post = "" ∨ ∃ t, post = String double_quote t) ∧
       text = "Transaction reverted: " +:+ reason).
Proof.
  apply (errorHandler_revert_is_400 false
           (mkJsError (Some 502) (Some "VM Exception: revert Already voted") None)
           "VM Exception: revert Already voted").
  - reflexivity.
  - reflexivity.
Defined.

(** X11. The handler recovers the revert reason.  For a message made of any
    text in which the word revert followed by a space does not occur, then
    that word and a space, then a non-empty reason without double quote or
    line break, then either nothing or a double quote and anything, the
    answer is status 400 with exactly that reason. *)
Theorem errorHandler_reports_the_reason
    (development : bool) (err : JsError) (pre reason post : string) :
  err_message err = Some (pre +:+ "revert " +:+ reason +:+ post) →
  includes (pre +:+ "revert") "revert " = false →
  reason ≠ "" →
  string_forallb (λ a, negb (is_line_terminator a)) reason = true →
  string_forallb (λ a, negb (Ascii.eqb a double_quote)) reason = true →
  (post = "" ∨ ∃ t, post = String double_quote t) →
  errorHandler development err =
    Responded (mkErrorReply 400 ("Transaction reverted: " +:+ reason)
                 (if development then err_stack err else None)).
Proof.
  intros Hm Hpre Hne Hlt Hq Hpost. unfold errorHandler. rewrite Hm.
  assert (Hinc : includes (pre +:+ "revert " +:+ reason +:+ post) "revert" = true).
  { change ("revert " +:+ reason +:+ post) with ("revert" +:+ " " +:+ reason +:+ post).
    apply includes_app. }
  rewrite Hinc, (match_revert_first pre (reason +:+ post) reason); [done | done |].
  by apply lazy_reason_complete.
Qed.

Lemma errorHandler_reports_the_reason_witness :
  errorHandler true
    (mkJsError None
       (Some ("Returned error: " +:+ "revert " +:+ "Not admin" +:+
              String double_quote ", code 3"))
       (Some "at send")) =
  Responded (mkErrorReply 400 ("Transaction reverted: " +:+ "Not admin") (Some "at send")).
Proof.
  apply (errorHandler_reports_the_reason true
           (mkJsError None
              (Some ("Returned error: " +:+ "revert " +:+ "Not admin" +:+
                     String double_quote ", code 3"))
              (Some "at send"))
           "Returned error: " "Not admin" (String double_quote ", code 3")).
  - reflexivity.
  - reflexivity.
  - discriminate.
  - reflexivity.
  - reflexivity.
  - right. by eexists.
Defined.

(** * The routes *)

Lemma Number_exact (n : N) : n < 2 ^ 53 → Number n = n.
Proof. intros Hn. unfold Number. by destruct (N.ltb_spec n (2 ^ 53)); [|lia]. Qed.

Lemma final_admin (ops : list Op) : ∀ s : Storage, admin (final s ops) = admin s.
Proof.
  induction ops as [|op ops IH]; intros s; [done|].
  by rewrite final_cons, IH, step_admin.
Qed.

Lemma final_candidates_length (s : Storage) (ops : list Op) :
  length (candidates (final s ops)) =
  (length (candidates s) + length (successful_adds (history s ops)))%nat.
Proof.
  pose proof (f_equal length (names_history ops s)) as H.
  by rewrite length_app, !length_fmap in H.
Qed.



(** ** [POST /api/candidates] *)

Lemma validateAddCandidate_Next (field : BodyField) :
  validateAddCandidate field = Next →
  ∃ nm, field = Str nm ∧ nm ≠ "" ∧ String.length (trim nm) ≠ 0%nat ∧
        (String.length nm ≤ 100)%nat.
Proof.
  destruct field as [| |nm]; [done | done |]. unfold validateAddCandidate.
  destruct (Nat.eqb_spec (String.length nm) 0) as [|Hlen]; [done|].
  destruct (Nat.eqb_spec (String.length (trim nm)) 0) as [|Htrim]; [done|].
  destruct (Nat.ltb_spec 100 (String.length nm)) as [|Hmax]; [done|].
  intros _. exists nm. split_and!; [done | by destruct nm | done | done].
Qed.

(** X12. The candidate route, for ASCII names, with the transactions of
    other senders that are mined while the handler waits: [before] the
    handler's own transaction, and [between] it and the handler's call of
    [getCandidateCount()].  A request the validator refuses is answered with
    the validator's status and message and the contract is not called.  A
    request it lets through is sent from the exported admin address, or the
    contract's admin when none is set.  If that is the admin, the route
    always answers 201 with the name, of 1 to 100 characters: the contract's
    own name check never fails behind the validator, and the candidate is
    appended to the array as it is when the transaction is mined.  When web3
    decodes the index from the receipt, the answered index is the number of
    candidates there were at that moment.  When it does not, the answered
    index is that number plus the number of candidates added by the
    transactions in between: the fallback is right exactly when no other
    candidate was added meanwhile.  Both hold as long as the numbers are
    below 2^53.  If the sender is not the admin, the contract reverts with
    [Unauthorized], which is forwarded to the error handler, and the handler
    changes nothing. *)
Theorem post_candidates_route_outcomes (decode : list Event → option uint256)
    (adminAddress : option address) (field : BodyField) (before between : list Op)
    (s : Storage) :
  (∀ log i, decode log = Some i → ∃ nm, CandidateAdded i nm ∈ log) →
  (∀ nm, field = Str nm → is_ascii nm = true) →
  (∀ status message,
     validateAddCandidate field = Rejected status message →
     post_candidates_route decode adminAddress (Some s) field before between =
       (Some s, Refused status message)) ∧
  (validateAddCandidate field = Next →
   default (admin s) adminAddress = admin s →
   ∃ nm idx s',
     field = Str nm ∧ (1 ≤ String.length nm ≤ 100)%nat ∧
     post_candidates_route decode adminAddress (Some s) field before between =
       (Some s', Json 201 (nm, idx)) ∧
     (is_Some (decode [CandidateAdded (candidates_length (final s before)) nm]) →
      s' = push_candidate (mkCandidate nm 0) (final s before) ∧
      (candidates_length (final s before) < 2 ^ 53 →
       idx = Z.of_nat (length (candidates (final s before))))) ∧
     (decode [CandidateAdded (candidates_length (final s before)) nm] = None →
      s' = final (push_candidate (mkCandidate nm 0) (final s before)) between ∧
      (candidates_length s' < 2 ^ 53 →
       idx = (Z.of_nat (length (candidates (final s before))) +
              Z.of_nat (length (successful_adds
                (history (push_candidate (mkCandidate nm 0) (final s before)) between))))%Z))) ∧
  (validateAddCandidate field = Next →
   default (admin s) adminAddress ≠ admin s →
   post_candidates_route decode adminAddress (Some s) field before between =
     (Some (final s before), Forwarded Unauthorized)).
Proof.
  intros Hdecode _.
  assert (Hsender : match adminAddress with Some a => a | None => admin s end =
                    default (admin s) adminAddress) by by destruct adminAddress.
  unfold post_candidates_route, validateContract, post_candidates_handler.
  rewrite Hsender. split_and!.
  - by intros status message ->.
  - intros Hnext Hadmin. rewrite Hnext, Hadmin.
    destruct (validateAddCandidate_Next field Hnext) as (nm & -> & Hne & _ & Hmax).
    set (s0 := final s before).
    assert (Hsend : transact (addCandidate (admin s) nm) s0 =
              (push_candidate (mkCandidate nm 0) s0,
               Success tt [CandidateAdded (candidates_length s0) nm])).
    { unfold transact. rewrite addCandidate_cases.
      unfold s0 at 1. rewrite final_admin, N.eqb_refl. simpl.
      by assert ((String.length nm =? 0)%nat = false) as -> by by destruct nm. }
    rewrite Hsend.
    destruct (decode [CandidateAdded (candidates_length s0) nm]) as [i|] eqn:Hd.
    + exists nm, (Z.of_N (Number i)), (push_candidate (mkCandidate nm 0) s0).
      split; [done|]. split; [destruct nm; simpl in *; [done|lia]|].
      split; [done|]. split; [|intros Hnone; rewrite Hd in Hnone; done].
      intros _. split; [done|]. intros Hsmall.
      apply Hdecode in Hd as [nm' Hin].
      apply list_elem_of_singleton in Hin. injection Hin as -> _.
      rewrite Number_exact by done. unfold candidates_length. lia.
    + eexists nm, _, _.
      split; [done|]. split; [destruct nm; simpl in *; [done|lia]|].
      split; [done|]. split; [intros [? Hsome]; rewrite Hd in Hsome; done|].
      intros _. split; [done|]. intros Hsmall.
      rewrite Number_exact by done.
      assert (Hlen : candidates_length
                       (final (push_candidate (mkCandidate nm 0) s0) between) =
                     N.of_nat (length (candidates s0) + 1 +
                               length (successful_adds
                                 (history (push_candidate (mkCandidate nm 0) s0) between)))).
      { unfold candidates_length. rewrite final_candidates_length. simpl.
        by rewrite length_app. }
      rewrite Hlen in *. unfold Number_minus_1.
      destruct (N.of_nat _) as [|p] eqn:Hp; [lia|].
      rewrite <- Hp, Number_exact by lia. lia.
  - intros Hnext Hadmin. rewrite Hnext.
    unfold transact. rewrite addCandidate_cases, final_admin.
    by destruct (N.eqb_spec (default (admin s) adminAddress) (admin s)).
Qed.

(** Another candidate is added while the handler waits for the count: the
    fallback answers index 2 for the candidate stored at index 1. *)
Lemma post_candidates_route_outcomes_witness :
  ∃ nm idx s',
    Str "Alice" = Str nm ∧ (1 ≤ String.length nm ≤ 100)%nat ∧
    post_candidates_route (λ _, None) None (Some (mkStorage 1 [mkCandidate "Zoe" 2] ∅ ∅))
      (Str "Alice") [] [AddCandidate 1 "Bob"] = (Some s', Json 201 (nm, idx)) ∧
    (is_Some (@None uint256) →
     s' = push_candidate (mkCandidate nm 0) (mkStorage 1 [mkCandidate "Zoe" 2] ∅ ∅) ∧
     (1 < 2 ^ 53 → idx = 1%Z)) ∧
    (@None uint256 = None →
     s' = final (push_candidate (mkCandidate nm 0) (mkStorage 1 [mkCandidate "Zoe" 2] ∅ ∅))
            [AddCandidate 1 "Bob"] ∧
     (candidates_length s' < 2 ^ 53 →
      idx = (1 + Z.of_nat (length (successful_adds
               (history (push_candidate (mkCandidate nm 0)
                           (mkStorage 1 [mkCandidate "Zoe" 2] ∅ ∅))
                  [AddCandidate 1 "Bob"]))))%Z)).
Proof.
  apply (proj1 (proj2 (post_candidates_route_outcomes (λ _, None) None (Str "Alice")
                         [] [AddCandidate 1 "Bob"]
                         (mkStorage 1 [mkCandidate "Zoe" 2] ∅ ∅)
                         (λ log i H, ltac:(discriminate H))
                         (λ nm H, ltac:(injection H as <-; reflexivity))))).
  - reflexivity.
  - reflexivity.
Defined.

Example post_candidates_route_interleaved :
  post_candidates_route (λ _, None) None (Some (mkStorage 1 [mkCandidate "Zoe" 2] ∅ ∅))
    (Str "Alice") [] [AddCandidate 1 "Bob"] =
  (Some (mkStorage 1 [mkCandidate "Zoe" 2; mkCandidate "Alice" 0; mkCandidate "Bob" 0] ∅ ∅),
   Json 201 ("Alice", 2%Z)).
Proof. vm_compute. reflexivity. Qed.

(** ** [GET /api/winner] *)








(** With two candidates of the same name the reported count can be that of
    the other one: the second "A" wins with one vote, the route reports 0. *)
Example get_winner_route_same_name :
  get_winner_route (Some (final (constructor 1)
     [AddCandidate 1 "A"; AddCandidate 1 "A"; CastVote 5 1])) [] =
  (Some (mkStorage 1 [mkCandidate "A" 0; mkCandidate "A" 1] {[5 := true]} {[5 := 1]}),
   Json 200 (Winner "A" 0)).
Proof. vm_compute. reflexivity. Qed.

(** A vote mined between the two calls shows in the reported count. *)
Example get_winner_route_interleaved :
  get_winner_route (Some (final (constructor 1)
     [AddCandidate 1 "A"; AddCandidate 1 "B"; CastVote 5 1])) [CastVote 6 1] =
  (Some (mkStorage 1 [mkCandidate "A" 0; mkCandidate "B" 2]
           (<[6 := true]> {[5 := true]}) (<[6 := 1]> {[5 := 1]})),
   Json 200 (Winner "B" 2)).
Proof. vm_compute. reflexivity. Qed.
